(** * django_redis_sentinel.sentinel: the Sentinel-aware cache client

    A shallow embedding of [SentinelClient] (sentinel.py) and the
    properties of its connection-string parser, its two cached client
    slots, its discovery logic and its failover decorator.

    Python values are modelled as follows:
    - [str] as [string], read as a sequence of code points below 256;
    - [int] as [Z];
    - an exception as its class, given by the method resolution order of
      the class, and its message;
    - the instance attributes of [SentinelClient] as a record threaded
      through a state-and-exception monad;
    - the collaborators (Sentinel, the random generator, the connection
      factory, the Django settings) as an environment of oracles. *)

From Stdlib Require Import ZArith Ascii String DecimalString DecimalPos.
From stdpp Require Import gmap strings list.

Local Open Scope string_scope.
Local Open Scope Z_scope.

(** ** Exceptions *)

Module Py.

(** An exception instance: the qualified names of its class and of the
    classes it inherits from, most specific first, and [str(e)]. *)
Record Exception := mkExc {
  exc_mro : list string;
  exc_msg : string
}.

Definition isinstance (e : Exception) (cls : string) : bool :=
  existsb (String.eqb cls) (exc_mro e).

Definition isinstance_any (e : Exception) (classes : list string) : bool :=
  existsb (isinstance e) classes.

Definition base_mro : list string :=
  ["builtins.Exception"; "builtins.BaseException"].

Definition lookup_error_mro : list string :=
  "builtins.LookupError" :: base_mro.

Definition connection_error_mro : list string :=
  ["builtins.ConnectionError"; "builtins.OSError"] ++ base_mro.

Definition redis_error_mro : list string :=
  "redis.exceptions.RedisError" :: base_mro.

Definition IndexError (msg : string) : Exception :=
  mkExc ("builtins.IndexError" :: lookup_error_mro) msg.

Definition ValueError (msg : string) : Exception :=
  mkExc ("builtins.ValueError" :: base_mro) msg.

Definition TypeError (msg : string) : Exception :=
  mkExc ("builtins.TypeError" :: base_mro) msg.

Definition KeyError (msg : string) : Exception :=
  mkExc ("builtins.KeyError" :: lookup_error_mro) msg.

Definition ConnectionError (msg : string) : Exception :=
  mkExc connection_error_mro msg.

Definition ConnectionResetError (msg : string) : Exception :=
  mkExc ("builtins.ConnectionResetError" :: connection_error_mro) msg.

Definition ConnectionRefusedError (msg : string) : Exception :=
  mkExc ("builtins.ConnectionRefusedError" :: connection_error_mro) msg.

Definition BrokenPipeError (msg : string) : Exception :=
  mkExc ("builtins.BrokenPipeError" :: connection_error_mro) msg.

(** django.core.exceptions.ImproperlyConfigured *)
Definition ImproperlyConfigured (msg : string) : Exception :=
  mkExc ("django.core.exceptions.ImproperlyConfigured" :: base_mro) msg.

(** redis.exceptions.ReadOnlyError, a ResponseError *)
Definition ReadOnlyError (msg : string) : Exception :=
  mkExc (["redis.exceptions.ReadOnlyError"; "redis.exceptions.ResponseError"]
           ++ redis_error_mro) msg.

(** redis.exceptions.ConnectionError: not the builtin of the same name *)
Definition RedisConnectionError (msg : string) : Exception :=
  mkExc ("redis.exceptions.ConnectionError" :: redis_error_mro) msg.

(** redis.sentinel.MasterNotFoundError *)
Definition MasterNotFoundError (msg : string) : Exception :=
  mkExc (["redis.sentinel.MasterNotFoundError"; "redis.exceptions.ConnectionError"]
           ++ redis_error_mro) msg.

(** django_redis.exceptions.ConnectionInterrupted *)
Definition ConnectionInterrupted (msg : string) : Exception :=
  mkExc ("django_redis.exceptions.ConnectionInterrupted" :: base_mro) msg.

(** ** Results of pure code that may raise *)

Inductive result (A : Type) : Type :=
| Ok (a : A)
| Raise (e : Exception).
Arguments Ok {A} a.
Arguments Raise {A} e.

Definition rbind {A B} (r : result A) (k : A -> result B) : result B :=
  match r with
  | Ok a => k a
  | Raise e => Raise e
  end.

(** [try: body except (classes): handler] *)
Definition rtry {A} (body : result A) (classes : list string)
    (handler : Exception -> result A) : result A :=
  match body with
  | Ok a => Ok a
  | Raise e => if isinstance_any e classes then handler e else Raise e
  end.

(** A list comprehension whose element expression may raise: elements
    are evaluated left to right and the first exception ends it. *)
Fixpoint comprehension {A B} (f : A -> result B) (l : list A) : result (list B) :=
  match l with
  | [] => Ok []
  | x :: rest =>
      rbind (f x) (fun y =>
      rbind (comprehension f rest) (fun ys => Ok (y :: ys)))
  end.

(** ** Strings *)

(** [s.split(sep)] for a one-character separator: every occurrence of
    the separator ends a field; the result is never empty. *)
Fixpoint split (sep : ascii) (s : string) : list string :=
  match s with
  | EmptyString => [EmptyString]
  | String c rest =>
      if Ascii.eqb c sep then EmptyString :: split sep rest
      else match split sep rest with
           | [] => [String c EmptyString]
           | field :: fields => String c field :: fields
           end
  end.

(** [l[i]] for a non-negative index *)
Definition getitem {A} (l : list A) (i : nat) : result A :=
  match l !! i with
  | Some x => Ok x
  | None => Raise (IndexError "list index out of range")
  end.

(** The characters [int()] skips around a literal, among the code
    points below 256: tab, line feed, vertical tab, form feed, carriage
    return, space, next line (133) and no-break space (160). *)
Definition isspace (c : ascii) : bool :=
  let n := nat_of_ascii c in
  ((9 <=? n)%nat && (n <=? 13)%nat) || (n =? 32)%nat || (n =? 133)%nat || (n =? 160)%nat.

Definition digit_value (c : ascii) : option Z :=
  let n := nat_of_ascii c in
  if ((48 <=? n)%nat && (n <=? 57)%nat) then Some (Z.of_nat (n - 48)) else None.

Fixpoint lstrip (l : list ascii) : list ascii :=
  match l with
  | c :: rest => if isspace c then lstrip rest else l
  | [] => []
  end.

Definition strip (l : list ascii) : list ascii :=
  rev (lstrip (rev (lstrip l))).

(** Decimal digits with single underscores between them. [after_digit]
    tells whether the previous character was a digit. *)
Fixpoint int_digits (acc : Z) (after_digit : bool) (l : list ascii) : option Z :=
  match l with
  | [] => if after_digit then Some acc else None
  | c :: rest =>
      match digit_value c with
      | Some d => int_digits (10 * acc + d) true rest
      | None =>
          if Ascii.eqb c "_" && after_digit then int_digits acc false rest
          else None
      end
  end.

Definition int_literal (l : list ascii) : option Z :=
  match l with
  | c :: rest =>
      if Ascii.eqb c "-" then Z.opp <$> int_digits 0 false rest
      else if Ascii.eqb c "+" then int_digits 0 false rest
      else int_digits 0 false l
  | [] => None
  end.

(** [int(s)] for a string, base 10, without a limit on the number of
    digits. The message of the ValueError leaves out the repr of [s]. *)
Definition int (s : string) : result Z :=
  match int_literal (strip (list_ascii_of_string s)) with
  | Some z => Ok z
  | None => Raise (ValueError "invalid literal for int() with base 10")
  end.

(** [str(n)] for an integer *)
Definition str_int (z : Z) : string :=
  NilZero.string_of_int (Z.to_int z).

(** [str(b)] for a boolean *)
Definition str_bool (b : bool) : string :=
  if b then "True" else "False".

End Py.

Import Py.

(** ** The collaborators of SentinelClient *)

(** A value of the OPTIONS dictionary of the cache backend. *)
Inductive value : Type :=
| VNone
| VStr (s : string)
| VInt (z : Z).

(** [bool(v)] *)
Definition truthy (v : value) : bool :=
  match v with
  | VNone => false
  | VStr s => negb (String.eqb s "")
  | VInt z => negb (z =? 0)
  end.

(** ["%s" % v] *)
Definition format_value (v : value) : string :=
  match v with
  | VNone => "None"
  | VStr s => s
  | VInt z => str_int z
  end.

(** [d.get(key, default)] *)
Definition dict_get (d : gmap string value) (key : string) (default : value) : value :=
  match d !! key with
  | Some v => v
  | None => default
  end.

(** A (host, port) pair. *)
Definition address : Type := string * Z.

(** The object built by [SentinelClass(sentinel_hosts, socket_timeout=,
    password=)]. *)
Record SentinelObj := mkSentinel {
  sentinels : list address;
  socket_timeout : value;
  sentinel_password : value
}.

(** The calls SentinelClient makes on its collaborators, in order. The
    entry into [close] is recorded too, so that its calls can be counted. *)
Inductive Event : Type :=
| SentinelInit (sentinel : SentinelObj)
| DiscoverMaster (service_name : string)
| DiscoverSlaves (service_name : string)
| RandomChoice (population : nat)
| FactoryConnect (connection_url : string)
| Disconnect (connection : nat)
| CloseCalled.

(** The client object returned by [connection_factory.connect]: the url
    it was built from and [connection_pool._available_connections]. *)
Record ClientObj := mkClient {
  client_url : string;
  available_connections : list nat
}.

(** The world outside SentinelClient. The oracles are indexed by the
    number of collaborator calls made so far, so that the topology of the
    cluster may change between two calls. *)
Record Env := mkEnv {
  (** [getattr(settings, "DJANGO_REDIS_CLOSE_CONNECTION", False)] *)
  DJANGO_REDIS_CLOSE_CONNECTION : bool;
  (** [sentinel.discover_master(service_name)] *)
  sentinel_discover_master : nat -> SentinelObj -> string -> result address;
  (** [sentinel.discover_slaves(service_name)] *)
  sentinel_discover_slaves : nat -> SentinelObj -> string -> result (list address);
  (** the draw of [random.choice] on a sequence of the given length; it
      is reduced below that length *)
  random_draw : nat -> nat -> nat;
  (** [connection_factory.connect(url)]: the idle connections of the
      pool of the new client, or the exception raised *)
  factory_connect : nat -> string -> result (list nat)
}.

(** ** The instance state *)

(** A reference to a client object: its position in the store. Two
    references are the same object exactly when they are equal. *)
Definition ref : Type := nat.

Record State := mkState {
  _client_write : option ref;
  _client_read : option ref;
  _connection_string : string;
  _options : gmap string value;
  (** the client objects created so far *)
  store : list ClientObj;
  (** the collaborator calls made so far, oldest first *)
  trace : list Event;
  (** the messages given to [self.log.debug], oldest first *)
  log : list string
}.

Definition set_client_write (c : option ref) (s : State) : State :=
  mkState c (_client_read s) (_connection_string s) (_options s)
          (store s) (trace s) (log s).

Definition set_client_read (c : option ref) (s : State) : State :=
  mkState (_client_write s) c (_connection_string s) (_options s)
          (store s) (trace s) (log s).

Definition add_event (ev : Event) (s : State) : State :=
  mkState (_client_write s) (_client_read s) (_connection_string s) (_options s)
          (store s) (trace s ++ [ev]) (log s).

Definition add_log (msg : string) (s : State) : State :=
  mkState (_client_write s) (_client_read s) (_connection_string s) (_options s)
          (store s) (trace s) (log s ++ [msg]).

Definition add_object (o : ClientObj) (s : State) : State :=
  mkState (_client_write s) (_client_read s) (_connection_string s) (_options s)
          (store s ++ [o]) (trace s) (log s).

(** ** Methods as state transformers that may raise *)

Definition M (A : Type) : Type := State -> result A * State.

Definition ret {A} (a : A) : M A := fun s => (Ok a, s).

Definition raise {A} (e : Exception) : M A := fun s => (Raise e, s).

Definition bind {A B} (m : M A) (k : A -> M B) : M B :=
  fun s =>
    match m s with
    | (Ok a, s') => k a s'
    | (Raise e, s') => (Raise e, s')
    end.

Definition lift {A} (r : result A) : M A := fun s => (r, s).

Definition gets {A} (f : State -> A) : M A := fun s => (Ok (f s), s).

Definition modify (f : State -> State) : M unit := fun s => (Ok tt, f s).

(** [try: body except classes: handler] *)
Definition try_except {A} (body : M A) (classes : list string)
    (handler : Exception -> M A) : M A :=
  fun s =>
    match body s with
    | (Ok a, s') => (Ok a, s')
    | (Raise e, s') =>
        if isinstance_any e classes then handler e s' else (Raise e, s')
    end.

(** [for x in l: body(x)] for a body that does not raise *)
Fixpoint for_each {A} (l : list A) (body : A -> M unit) : M unit :=
  match l with
  | [] => ret tt
  | x :: rest => bind (body x) (fun _ => for_each rest body)
  end.

Declare Scope py_scope.
Delimit Scope py_scope with py.
Notation "x <- m ;; k" := (bind m (fun x => k))
  (at level 100, m at next level, right associativity) : py_scope.
Notation "m ;;; k" := (bind m (fun _ => k))
  (at level 100, right associativity) : py_scope.
Local Open Scope py_scope.

Definition emit (ev : Event) : M unit := modify (add_event ev).

(** [self.log.debug(msg)] *)
Definition log_debug (msg : string) : M unit := modify (add_log msg).

Definition run {A} (m : M A) (s : State) : result A := fst (m s).
Definition exec {A} (m : M A) (s : State) : State := snd (m s).

(** ** SentinelClient *)

(** [host, port = server] in the second comprehension of the parser *)
Definition unpack_pair (server : list string) : result (string * string) :=
  match server with
  | [host; port] => Ok (host, port)
  | [] | [_] => Raise (ValueError "not enough values to unpack")
  | _ => Raise (ValueError "too many values to unpack")
  end.

(** [(host, int(port)) for host, port in servers], one element *)
Definition host_port (server : list string) : result address :=
  rbind (unpack_pair server) (fun hp =>
  rbind (int (snd hp)) (fun port => Ok (fst hp, port))).

(** The body of the [try] of [parse_connection_string]. *)
Definition parse_body (constring : string) : result (string * list address * string) :=
  let connection_params := split "/" constring in
  rbind (getitem connection_params 0) (fun master_name =>
  rbind (getitem connection_params 1) (fun hosts =>
  let servers := map (split ":") (split "," hosts) in
  rbind (comprehension host_port servers) (fun sentinel_hosts =>
  rbind (getitem connection_params 2) (fun db =>
  Ok (master_name, sentinel_hosts, db))))).

Definition parse_connection_string (constring : string)
    : result (string * list address * string) :=
  rtry (parse_body constring)
       ["builtins.ValueError"; "builtins.TypeError"; "builtins.IndexError"]
       (fun _ => Raise (ImproperlyConfigured ("Incorrect format '" ++ constring ++ "'"))).

(** What [get_client] returns: the client, or the pair of the client and
    an index when [show_index] is true. *)
Inductive ClientResult : Type :=
| Client (c : ref)
| ClientWithIndex (c : ref) (index : Z).

Definition client_of (r : ClientResult) : ref :=
  match r with
  | Client c => c
  | ClientWithIndex c _ => c
  end.

(** The exceptions the failover decorator catches. [ConnectionError] is
    not imported by the module, so it is the builtin one. *)
Definition caught_by_exception_check : list string :=
  ["builtins.ConnectionError"; "redis.exceptions.ReadOnlyError";
   "django_redis.exceptions.ConnectionInterrupted"].

(** [__init__]: both slots start empty; [server] is kept as the
    connection string and the OPTIONS of the backend as [_options]. *)
Definition init (server : string) (options : gmap string value) : State :=
  mkState None None server options [] [] [].

Section SentinelClient.

Context (env : Env).

Definition clock (s : State) : nat := length (trace s).

Definition discover_master (sentinel : SentinelObj) (service_name : string) : M address :=
  fun s =>
    (sentinel_discover_master env (clock s) sentinel service_name,
     add_event (DiscoverMaster service_name) s).

Definition discover_slaves (sentinel : SentinelObj) (service_name : string)
    : M (list address) :=
  fun s =>
    (sentinel_discover_slaves env (clock s) sentinel service_name,
     add_event (DiscoverSlaves service_name) s).

(** [random.choice(seq)]: IndexError on an empty sequence, else the
    element at the position drawn below [len(seq)]. *)
Definition random_choice {A} (seq : list A) : M A :=
  fun s =>
    let i := (random_draw env (clock s) (length seq) mod length seq)%nat in
    (match seq !! i with
     | Some x => Ok x
     | None => Raise (IndexError "Cannot choose from an empty sequence")
     end,
     add_event (RandomChoice (length seq)) s).

(** [self.connection_factory.connect(connection_url)]: the new client
    object gets the next free reference. *)
Definition connection_factory_connect (connection_url : string) : M ref :=
  fun s =>
    let s' := add_event (FactoryConnect connection_url) s in
    match factory_connect env (clock s) connection_url with
    | Ok pool => (Ok (length (store s')), add_object (mkClient connection_url pool) s')
    | Raise e => (Raise e, s')
    end.

Definition connection_url_of (password : value) (host : string) (port : Z)
    (db : string) : string :=
  if truthy password then
    "redis://:" ++ format_value password ++ "@" ++ host ++ ":" ++ str_int port ++ "/" ++ db
  else
    "redis://" ++ host ++ ":" ++ str_int port ++ "/" ++ db.

(** The endpoint [connect] chooses. *)
Definition choose_endpoint (write : bool) (sentinel : SentinelObj)
    (master_name : string) : M address :=
  if write then discover_master sentinel master_name
  else
    try_except
      (slaves <- discover_slaves sentinel master_name ;; random_choice slaves)
      ["builtins.IndexError"]
      (fun _ =>
         log_debug "no slaves are available. using master for read." ;;;
         discover_master sentinel master_name).

(** [connect(write, SentinelClass)] with the default [SentinelClass],
    whose methods are the oracles of the environment. *)
Definition connect (write : bool) : M ref :=
  log_debug ("connect called: write=" ++ str_bool write) ;;;
  constring <- gets _connection_string ;;
  parsed <- lift (parse_connection_string constring) ;;
  let master_name := fst (fst parsed) in
  let sentinel_hosts := snd (fst parsed) in
  let db := snd parsed in
  options <- gets _options ;;
  let sentinel_timeout := dict_get options "SENTINEL_TIMEOUT" (VInt 1) in
  let password := dict_get options "PASSWORD" VNone in
  let sentinel := mkSentinel sentinel_hosts sentinel_timeout password in
  emit (SentinelInit sentinel) ;;;
  endpoint <- choose_endpoint write sentinel master_name ;;
  let connection_url := connection_url_of password (fst endpoint) (snd endpoint) db in
  log_debug ("Connecting to: " ++ connection_url) ;;;
  connection_factory_connect connection_url.

(** [get_client(write, tried, show_index)]; [tried] is not used by the
    method. The slot is read back after the assignment in the source;
    here the client is passed on directly. *)
Definition get_client (write : bool) (show_index : bool) : M ClientResult :=
  log_debug ("get_client called: write=" ++ str_bool write) ;;;
  if write then
    cached <- gets _client_write ;;
    c <- match cached with
         | None => c <- connect write ;; modify (set_client_write (Some c)) ;;; ret c
         | Some c => ret c
         end ;;
    ret (if show_index then ClientWithIndex c 0 else Client c)
  else
    cached <- gets _client_read ;;
    c <- match cached with
         | None => c <- connect write ;; modify (set_client_read (Some c)) ;;; ret c
         | Some c => ret c
         end ;;
    ret (if show_index then ClientWithIndex c 0 else Client c).

(** [for c in client.connection_pool._available_connections:
    c.disconnect()]. A slot only ever holds a reference that
    [connection_factory_connect] returned, so the object is in the store. *)
Definition disconnect_available (c : ref) : M unit :=
  objects <- gets store ;;
  for_each (match objects !! c with
            | Some o => available_connections o
            | None => []
            end)
           (fun connection => emit (Disconnect connection)).

(** [close()]. A client object is truthy, so [if self._client_read:]
    tests the slot for None. *)
Definition close : M unit :=
  emit CloseCalled ;;;
  if DJANGO_REDIS_CLOSE_CONNECTION env then
    log_debug "close called" ;;;
    client_read <- gets _client_read ;;
    match client_read with
    | Some c => disconnect_available c ;;; log_debug "client_read closed"
    | None => ret tt
    end ;;;
    client_write <- gets _client_write ;;
    match client_write with
    | Some c => disconnect_available c ;;; log_debug "client_write closed"
    | None => ret tt
    end ;;;
    modify (set_client_write None) ;;;
    modify (set_client_read None)
  else ret tt.

(** The wrapper returned by [exception_check(func)], applied to its
    arguments. *)
Definition exception_check {A} (func : M A) : M A :=
  try_except func caught_by_exception_check
    (fun e =>
       close ;;;
       raise (ConnectionResetError ("Error: " ++ exc_msg e ++ ", closing old connections"))).

End SentinelClient.

(** ** The connection string, as the documentation describes it *)

(** The comma-separated endpoints of the second segment. *)
Definition endpoints (constring : string) : list string :=
  match split "/" constring !! 1%nat with
  | Some hosts => split "," hosts
  | None => []
  end.

(** The endpoint [host:port] denotes the address [a]. *)
Definition endpoint_is (endpoint : string) (a : address) : Prop :=
  exists port, split ":" endpoint = [a.1; port] /\ int port = Ok a.2.

Definition missing_segment (constring : string) : Prop :=
  (length (split "/" constring) < 3)%nat.

Definition malformed_endpoint (constring : string) : Prop :=
  exists endpoint,
    endpoint ∈ endpoints constring /\ length (split ":" endpoint) <> 2%nat.

Definition non_integer_port (constring : string) : Prop :=
  exists endpoint host port,
    endpoint ∈ endpoints constring /\ split ":" endpoint = [host; port] /\
    forall z, int port <> Ok z.

Definition empty_endpoint_list (constring : string) : Prop :=
  split "/" constring !! 1%nat = Some "".

Definition ill_formed (constring : string) : Prop :=
  missing_segment constring \/ non_integer_port constring \/
  malformed_endpoint constring \/ empty_endpoint_list constring.

(** The descriptor a well-formed connection string denotes. *)
Definition denotes (constring : string) (d : string * list address * string) : Prop :=
  exists hosts rest,
    split "/" constring = d.1.1 :: hosts :: d.2 :: rest /\
    Forall2 endpoint_is (split "," hosts) d.1.2.

Definition incorrect_format (constring : string) : Exception :=
  ImproperlyConfigured ("Incorrect format '" ++ constring ++ "'").

(** The validity of a descriptor as the data model words it: a
    non-empty cluster name, at least one endpoint, each with a non-empty
    host, and a non-empty db index. *)
Definition descriptor_valid (d : string * list address * string) : Prop :=
  d.1.1 <> "" /\ d.1.2 <> [] /\ Forall (fun a : address => a.1 <> "") d.1.2 /\
  d.2 <> "".

(** [sep in s] *)
Fixpoint contains (sep : ascii) (s : string) : bool :=
  match s with
  | EmptyString => false
  | String c rest => Ascii.eqb c sep || contains sep rest
  end.

(** ** Observations on states and traces *)

(** The slot [get_client(write)] serves. *)
Definition slot (write : bool) (s : State) : option ref :=
  if write then _client_write s else _client_read s.

Definition set_slot (write : bool) (c : option ref) (s : State) : State :=
  if write then set_client_write c s else set_client_read c s.

Definition is_discovery (ev : Event) : bool :=
  match ev with
  | DiscoverMaster _ | DiscoverSlaves _ => true
  | _ => false
  end.

Definition is_disconnect (ev : Event) : bool :=
  match ev with
  | Disconnect _ => true
  | _ => false
  end.

Definition is_close (ev : Event) : bool :=
  match ev with
  | CloseCalled => true
  | _ => false
  end.

(** The number of calls of [close] so far. *)
Definition close_calls (s : State) : nat :=
  length (List.filter is_close (trace s)).

(** The collaborator calls made between the states [s] and [s']. *)
Definition new_events (s s' : State) : list Event :=
  drop (length (trace s)) (trace s').

(** The first question [connect] puts to the Sentinels. *)
Definition first_query (write : bool) (master_name : string) : Event :=
  if write then DiscoverMaster master_name else DiscoverSlaves master_name.

(** The [password] and the [sentinel] that [connect] builds in state
    [s] once the connection string gave [sentinel_hosts]. *)
Definition password_of (s : State) : value :=
  dict_get (_options s) "PASSWORD" VNone.

Definition sentinel_of (s : State) (sentinel_hosts : list address) : SentinelObj :=
  mkSentinel sentinel_hosts (dict_get (_options s) "SENTINEL_TIMEOUT" (VInt 1))
             (password_of s).

(** The url [connect] composes in state [s] for the address [a]. *)
Definition url_of (s : State) (a : address) (db : string) : string :=
  connection_url_of (password_of s) a.1 a.2 db.

(** The first line of [get_client] and of [connect]. *)
Definition get_client_called (write : bool) : string :=
  "get_client called: write=" ++ str_bool write.

Definition connect_called (write : bool) : string :=
  "connect called: write=" ++ str_bool write.

(** What [get_client] hands back for the client [c]. *)
Definition client_result (show_index : bool) (c : ref) : ClientResult :=
  if show_index then ClientWithIndex c 0 else Client c.

(** The exception the failover decorator raises in place of [e]. *)
Definition stale (e : Exception) : Exception :=
  ConnectionResetError ("Error: " ++ exc_msg e ++ ", closing old connections").

(** An exception of one of the three kinds the decorator catches. *)
Definition fatal (e : Exception) : Prop :=
  isinstance e "builtins.ConnectionError" = true \/
  isinstance e "redis.exceptions.ReadOnlyError" = true \/
  isinstance e "django_redis.exceptions.ConnectionInterrupted" = true.

(** The state in which [connect], called by [get_client] in state [s],
    starts its discovery: the Sentinel has been built. *)
Definition discovering (write : bool) (s : State) (sentinel : SentinelObj) : State :=
  add_event (SentinelInit sentinel)
    (add_log (connect_called write) (add_log (get_client_called write) s)).

(** The state a successful [connection_factory.connect] and the
    assignment to the slot leave behind, [s3] being the state after the
    discovery. *)
Definition connected (write : bool) (url : string) (pool : list nat) (s3 : State)
    : State :=
  set_slot write (Some (length (store s3)))
    (add_object (mkClient url pool)
       (add_event (FactoryConnect url) (add_log ("Connecting to: " ++ url) s3))).

(** [client.connection_pool._available_connections] of the client in a
    slot; nothing for an empty slot. *)
Definition pool_of (s : State) (c : option ref) : list nat :=
  match c with
  | Some r =>
      match store s !! r with
      | Some o => available_connections o
      | None => []
      end
  | None => []
  end.

Definition add_events (evs : list Event) (s : State) : State :=
  mkState (_client_write s) (_client_read s) (_connection_string s) (_options s)
          (store s) (trace s ++ evs) (log s).

(** The lines [close] logs for a slot. *)
Definition closed_log (c : option ref) (msg : string) : list string :=
  match c with
  | Some _ => [msg]
  | None => []
  end.

(** The state [close] leaves when DJANGO_REDIS_CLOSE_CONNECTION is set:
    the idle connections of the read client, then those of the write
    client, have been disconnected, and both slots are empty. *)
Definition closed (s : State) : State :=
  mkState None None (_connection_string s) (_options s) (store s)
          (trace s ++ CloseCalled ::
             map Disconnect (pool_of s (_client_read s)) ++
             map Disconnect (pool_of s (_client_write s)))
          (log s ++ "close called" ::
             closed_log (_client_read s) "client_read closed" ++
             closed_log (_client_write s) "client_write closed").

(** A caller that makes the given [get_client] calls one after the
    other, each given as (write, show_index), whatever they return or
    raise. *)
Fixpoint get_clients (env : Env) (calls : list (bool * bool)) (s : State) : State :=
  match calls with
  | [] => s
  | (write, show_index) :: rest =>
      get_clients env rest (exec (get_client env write show_index) s)
  end.

(** The three ways [connect], called by [get_client] in state [s], fails
    with [e]: the connection string does not parse, the discovery of the
    endpoint raises, or the connection factory raises. *)
Inductive connect_fails (env : Env) (write : bool) (s : State) (e : Exception) : Prop :=
| parse_fails :
    parse_connection_string (_connection_string s) = Raise e ->
    connect_fails env write s e
| discovery_fails (parsed : string * list address * string) (s3 : State) :
    parse_connection_string (_connection_string s) = Ok parsed ->
    choose_endpoint env write (sentinel_of s parsed.1.2) parsed.1.1
      (add_event (SentinelInit (sentinel_of s parsed.1.2))
         (add_log (connect_called write) (add_log (get_client_called write) s)))
      = (Raise e, s3) ->
    connect_fails env write s e
| factory_fails (parsed : string * list address * string) (a : address) (s3 : State) :
    parse_connection_string (_connection_string s) = Ok parsed ->
    choose_endpoint env write (sentinel_of s parsed.1.2) parsed.1.1
      (add_event (SentinelInit (sentinel_of s parsed.1.2))
         (add_log (connect_called write) (add_log (get_client_called write) s)))
      = (Ok a, s3) ->
    factory_connect env (clock s3) (url_of s a parsed.2) = Raise e ->
    connect_fails env write s e.

(** ** A cluster to run the client on *)

Module Example.

(** The primary is (h1, 1), the only replica (h3, 3); every new client
    comes with the idle connections 7 and 8 in its pool. *)
Definition env (close_connection : bool) : Env :=
  mkEnv close_connection
        (fun _ _ _ => Ok ("h1", 1))
        (fun _ _ _ => Ok [("h3", 3)])
        (fun _ _ => 0%nat)
        (fun t _ => Ok [(10 * t)%nat; (10 * t + 1)%nat]).

(** The same cluster without a replica. *)
Definition env_no_replica : Env :=
  mkEnv true
        (fun _ _ _ => Ok ("h1", 1))
        (fun _ _ _ => Ok [])
        (fun _ _ => 0%nat)
        (fun _ _ => Ok []).

(** A cluster whose Sentinels know no primary. *)
Definition env_no_primary : Env :=
  mkEnv true
        (fun _ _ _ => Raise (MasterNotFoundError "No master found for 'cluster1'"))
        (fun _ _ _ => Ok [])
        (fun _ _ => 0%nat)
        (fun _ _ => Ok []).

Definition start : State := init "cluster1/h1:1,h2:2/3" ∅.

(** A wrapped operation that loses its connection, and one that fails
    for another reason. *)
Definition failing_get : M Z :=
  fun s => (Raise (ConnectionInterrupted "Redis ConnectionError: connection lost"), s).

Definition bad_key : M Z := fun s => (Raise (KeyError "k"), s).

End Example.

(** ** Writing a connection string *)

(** [sep.join(l)] *)
Fixpoint join (sep : ascii) (l : list string) : string :=
  match l with
  | [] => ""
  | [x] => x
  | x :: rest => x ++ String sep (join sep rest)
  end.

(** The format the docstring of [parse_connection_string] gives:
    master_name/sentinel_server:port,sentinel_server:port/db_id, each
    endpoint given as the host and the text of the port. *)
Definition compose_connection_string (master_name : string)
    (servers : list (string * string)) (db : string) : string :=
  master_name ++ "/" ++ join "," (map (fun hp => hp.1 ++ ":" ++ hp.2) servers)
    ++ "/" ++ db.

(** The connection string of a descriptor, the ports written by [str]. *)
Definition format_descriptor (d : string * list address * string) : string :=
  compose_connection_string d.1.1 (map (fun a : address => (a.1, str_int a.2)) d.1.2) d.2.

(** [s.count(c)] *)
Fixpoint count_char (c : ascii) (s : string) : nat :=
  match s with
  | EmptyString => 0%nat
  | String c' rest => ((if Ascii.eqb c' c then 1 else 0) + count_char c rest)%nat
  end.

(** A field that can stand in a connection string: it holds none of the
    three separators. *)
Definition plain (field : string) : Prop :=
  contains "/" field = false /\ contains "," field = false /\
  contains ":" field = false.

(** The value of a decimal numeral read after the value [acc]. *)
Fixpoint decimal_value (d : Decimal.uint) (acc : Z) : Z :=
  match d with
  | Decimal.Nil => acc
  | Decimal.D0 d => decimal_value d (10 * acc)
  | Decimal.D1 d => decimal_value d (10 * acc + 1)
  | Decimal.D2 d => decimal_value d (10 * acc + 2)
  | Decimal.D3 d => decimal_value d (10 * acc + 3)
  | Decimal.D4 d => decimal_value d (10 * acc + 4)
  | Decimal.D5 d => decimal_value d (10 * acc + 5)
  | Decimal.D6 d => decimal_value d (10 * acc + 6)
  | Decimal.D7 d => decimal_value d (10 * acc + 7)
  | Decimal.D8 d => decimal_value d (10 * acc + 8)
  | Decimal.D9 d => decimal_value d (10 * acc + 9)
  end.

(** The characters [str] writes an integer with. *)
Definition numeral_char (c : ascii) : bool :=
  match digit_value c with
  | Some _ => true
  | None => Ascii.eqb c "-"
  end.

(** ** Callers of SentinelClient *)

(** What a user of the client does with it: ask for a client, close it,
    or run a wrapped operation that raises [e]. *)
Inductive Call : Type :=
| GetClient (write show_index : bool)
| Close
| Failing (e : Exception).

Definition call (env : Env) (c : Call) (s : State) : State :=
  match c with
  | GetClient write show_index => exec (get_client env write show_index) s
  | Close => exec (close env) s
  | Failing e => exec (exception_check env (raise e : M unit)) s
  end.

Definition run_calls (env : Env) (calls : list Call) (s : State) : State :=
  fold_left (fun s c => call env c s) calls s.

(** Every filled slot refers to a client object of the store. *)
Definition valid_slots (s : State) : Prop :=
  forall write c, slot write s = Some c -> (c < length (store s))%nat.

(** What holds of the client built from [server] and [options]
    throughout its life. *)
Definition holds (server : string) (options : gmap string value) (s : State) : Prop :=
  valid_slots s /\ _connection_string s = server /\ _options s = options.

(** An event [connect] can cause. *)
Definition is_connect_event (ev : Event) : bool :=
  match ev with
  | Disconnect _ | CloseCalled => false
  | _ => true
  end.

(** ** More clusters and clients to run *)

Module Example2.

(** A cluster whose Sentinels raise [e] when asked for the replicas. *)
Definition env_replicas_fail (e : Exception) : Env :=
  mkEnv true
        (fun _ _ _ => Ok ("h1", 1))
        (fun _ _ _ => Raise e)
        (fun _ _ => 0%nat)
        (fun _ _ => Ok []).

(** A client with a password and a Sentinel timeout of 5. *)
Definition start_with_password : State :=
  init "cluster1/h1:1,h2:2/3"
       (<["PASSWORD" := VStr "s3cret"]> (<["SENTINEL_TIMEOUT" := VInt 5]> ∅)).

End Example2.

(** ** The loop of [__init__] *)

Definition AttributeError (msg : string) : Exception :=
  mkExc ("builtins.AttributeError" :: base_mro) msg.

(** The names [__init__] goes through. *)
Definition wrapped_attributes : list string :=
  ["set"; "incr_version"; "add"; "get"; "persist"; "expire";
   "lock"; "delete"; "delete_pattern"; "delete_many"; "clear";
   "get_many"; "set_many"; "incr"; "decr"; "ttl"; "has_key";
   "iter_keys"; "keys"].

(** What [getattr(self, attr)] gives: a method, taking its arguments to
    a computation, or a value that is not callable. *)
Inductive Attribute (Args A : Type) : Type :=
| Callable (f : Args -> M A)
| NotCallable (v : value).
Arguments Callable {Args A} f.
Arguments NotCallable {Args A} v.

(** [wrapper], the function [exception_check(func)] returns. *)
Definition wrapper (env : Env) {Args A} (func : Args -> M A) : Args -> M A :=
  fun args => exception_check env (func args).

(** One turn of the loop: [getattr] raises AttributeError for a name the
    object does not have; a callable is replaced by its wrapper through
    [setattr]; anything else is left alone. The test is
    [isinstance(_, collections.Callable)], as the Python versions up to
    3.9 have it. *)
Definition wrap_attribute (env : Env) {Args A}
    (attrs : gmap string (Attribute Args A)) (attr : string)
    : result (gmap string (Attribute Args A)) :=
  match attrs !! attr with
  | None =>
      Raise (AttributeError
               ("'SentinelClient' object has no attribute '" ++ attr ++ "'"))
  | Some (Callable func) => Ok (<[attr := Callable (wrapper env func)]> attrs)
  | Some (NotCallable _) => Ok attrs
  end.

Fixpoint wrap_attributes (env : Env) {Args A} (names : list string)
    (attrs : gmap string (Attribute Args A))
    : result (gmap string (Attribute Args A)) :=
  match names with
  | [] => Ok attrs
  | attr :: rest => rbind (wrap_attribute env attrs attr) (wrap_attributes env rest)
  end.

(** The attributes of the object when [__init__] returns, from those
    the class and [DefaultClient.__init__] gave it. *)
Definition init_attributes (env : Env) {Args A}
    (attrs : gmap string (Attribute Args A)) : result (gmap string (Attribute Args A)) :=
  wrap_attributes env wrapped_attributes attrs.

(** The attribute [name] after the names [names] have been gone through. *)
Definition wrapped_lookup (env : Env) {Args A} (names : list string)
    (attrs : gmap string (Attribute Args A)) (name : string)
    : option (Attribute Args A) :=
  match attrs !! name with
  | Some (Callable func) =>
      if decide (name ∈ names) then Some (Callable (wrapper env func))
      else Some (Callable func)
  | other => other
  end.

(** An object with the nineteen methods, each losing its connection
    when called, a [close] method and a data attribute. *)
Definition example_attributes : gmap string (Attribute unit Z) :=
  <["close" := Callable (fun _ => Example.bad_key)]>
    (<["_backend" := NotCallable (VStr "RedisCache")]>
       (list_to_map
          (map (fun name => (name, Callable (fun _ : unit => Example.failing_get)))
               wrapped_attributes))).

(** ** Basic facts about the Python primitives *)

Lemma split_nonempty (sep : ascii) (s : string) : split sep s <> [].
Proof.
  destruct s as [|c rest]; simpl; [discriminate|].
  destruct (Ascii.eqb c sep); [discriminate|].
  destruct (split sep rest); discriminate.
Qed.

Lemma getitem_Ok {A} (l : list A) (i : nat) (x : A) :
  getitem l i = Ok x <-> l !! i = Some x.
Proof.
  unfold getitem. destruct (l !! i); split; intros H; inversion H; reflexivity.
Qed.

Lemma getitem_Raise {A} (l : list A) (i : nat) (e : Exception) :
  getitem l i = Raise e ->
  e = IndexError "list index out of range" /\ l !! i = None.
Proof.
  unfold getitem. destruct (l !! i); intros H; inversion H; auto.
Qed.

Lemma int_Raise (s : string) (e : Exception) :
  int s = Raise e -> e = ValueError "invalid literal for int() with base 10".
Proof.
  unfold int. destruct (int_literal _); intros H; inversion H; reflexivity.
Qed.

Lemma unpack_pair_Ok (server : list string) (host port : string) :
  unpack_pair server = Ok (host, port) <-> server = [host; port].
Proof.
  destruct server as [|a [|b [|c rest]]]; simpl; split; intros H;
    inversion H; reflexivity.
Qed.

Lemma unpack_pair_Raise (server : list string) (e : Exception) :
  unpack_pair server = Raise e ->
  isinstance e "builtins.ValueError" = true /\ length server <> 2%nat.
Proof.
  destruct server as [|a [|b [|c rest]]]; simpl; intros H; inversion H;
    split; try reflexivity; discriminate.
Qed.

Lemma host_port_Ok (endpoint : string) (a : address) :
  host_port (split ":" endpoint) = Ok a <-> endpoint_is endpoint a.
Proof.
  unfold host_port, endpoint_is. destruct a as [host z]. simpl. split.
  - destruct (unpack_pair _) as [[h p]|e] eqn:Hu; simpl; [|discriminate].
    apply unpack_pair_Ok in Hu.
    destruct (int p) as [z'|e] eqn:Hi; simpl; [|discriminate].
    intros H. inversion H. subst. exists p. auto.
  - intros (port & Hs & Hi). rewrite Hs. simpl. rewrite Hi. reflexivity.
Qed.

Lemma host_port_Raise (endpoint : string) (e : Exception) :
  host_port (split ":" endpoint) = Raise e ->
  isinstance e "builtins.ValueError" = true /\
  (length (split ":" endpoint) <> 2%nat \/
   exists host port, split ":" endpoint = [host; port] /\ forall z, int port <> Ok z).
Proof.
  unfold host_port.
  destruct (unpack_pair _) as [[h p]|e'] eqn:Hu; simpl.
  - apply unpack_pair_Ok in Hu.
    destruct (int p) as [z'|e'] eqn:Hi; simpl; [discriminate|].
    intros H. inversion H. subst. apply int_Raise in Hi as He. subst e.
    split; [reflexivity|]. right. exists h, p. split; [assumption|].
    intros z. rewrite Hi. discriminate.
  - intros H. inversion H. subst. apply unpack_pair_Raise in Hu as [? ?]. auto.
Qed.

Lemma comprehension_Ok {A B} (f : A -> result B) (l : list A) (ys : list B) :
  comprehension f l = Ok ys <-> Forall2 (fun x y => f x = Ok y) l ys.
Proof.
  revert ys. induction l as [|x rest IH]; intros ys; simpl.
  - split; intros H; [inversion H; constructor | inversion H; reflexivity].
  - destruct (f x) as [y|e] eqn:Hx; simpl.
    + destruct (comprehension f rest) as [ys'|e] eqn:Hr; simpl.
      * split; intros H.
        -- inversion H. subst. constructor; [assumption|]. apply IH. reflexivity.
        -- inversion H as [|? y' ? ys'' Hy Hys]. subst.
           rewrite Hx in Hy. inversion Hy. subst.
           apply IH in Hys. inversion Hys. reflexivity.
      * split; intros H; [discriminate|].
        inversion H as [|? y' ? ys'' Hy Hys]. subst.
        apply IH in Hys. discriminate.
    + split; intros H; [discriminate|].
      inversion H as [|? y' ? ys'' Hy Hys]. rewrite Hx in Hy. discriminate.
Qed.

Lemma comprehension_Raise {A B} (f : A -> result B) (l : list A) (e : Exception) :
  comprehension f l = Raise e -> exists x, x ∈ l /\ f x = Raise e.
Proof.
  induction l as [|x rest IH]; simpl; [discriminate|].
  destruct (f x) as [y|e'] eqn:Hx; simpl.
  - destruct (comprehension f rest) as [ys'|e'] eqn:Hr; simpl; [discriminate|].
    intros H. inversion H. subst. destruct (IH eq_refl) as (x' & Hin & Hf).
    exists x'. split; [right; assumption | assumption].
  - intros H. inversion H. subst. exists x. split; [left | assumption].
Qed.

Lemma comprehension_map {A B C} (f : B -> result C) (g : A -> B) (l : list A) :
  comprehension f (map g l) = comprehension (fun x => f (g x)) l.
Proof.
  induction l as [|x rest IH]; simpl; [reflexivity|]. rewrite IH. reflexivity.
Qed.

(** ** The parser *)

Lemma parse_body_Ok (constring : string) (d : string * list address * string) :
  parse_body constring = Ok d <-> denotes constring d.
Proof.
  unfold parse_body, denotes. destruct d as [[name hosts] db]. simpl.
  destruct (split "/" constring) as [|p0 [|p1 [|p2 rest]]] eqn:Hs; simpl;
    rewrite ?comprehension_map.
  - split; [discriminate | intros (? & ? & H & _); discriminate].
  - split; [discriminate | intros (? & ? & H & _); discriminate].
  - split; [|intros (? & ? & H & _); discriminate].
    destruct (comprehension _ _); discriminate.
  - destruct (comprehension _ _) as [l|e] eqn:Hc; simpl.
    + apply comprehension_Ok in Hc. split.
      * intros H. inversion H. subst. exists p1, rest. split; [reflexivity|].
        eapply Forall2_impl; [exact Hc|]. intros x y Hxy.
        apply host_port_Ok. exact Hxy.
      * intros (h & r & H & HF). inversion H. subst.
        assert (Hc' : comprehension (fun x => host_port (split ":" x))
                        (split "," h) = Ok hosts).
        { apply comprehension_Ok. eapply Forall2_impl; [exact HF|].
          intros x y Hxy. apply host_port_Ok. exact Hxy. }
        apply comprehension_Ok in Hc'.
        assert (l = hosts).
        { clear -Hc Hc'. revert hosts Hc'.
          induction Hc as [|x y xs ys Hxy _ IH]; intros hosts Hc';
            inversion Hc'; subst; [reflexivity|].
          f_equal; [congruence | apply IH; assumption]. }
        subst. reflexivity.
    + split; [discriminate|]. intros (h & r & H & HF). inversion H. subst.
      assert (Hc' : comprehension (fun x => host_port (split ":" x))
                      (split "," h) = Ok hosts).
      { apply comprehension_Ok. eapply Forall2_impl; [exact HF|].
        intros x y Hxy. apply host_port_Ok. exact Hxy. }
      congruence.
Qed.

Lemma parse_body_Raise (constring : string) (e : Exception) :
  parse_body constring = Raise e ->
  isinstance_any e ["builtins.ValueError"; "builtins.TypeError"; "builtins.IndexError"]
    = true /\
  (missing_segment constring \/ non_integer_port constring \/
   malformed_endpoint constring).
Proof.
  unfold parse_body, missing_segment, non_integer_port, malformed_endpoint, endpoints.
  destruct (split "/" constring) as [|p0 [|p1 [|p2 rest]]] eqn:Hs; simpl;
    rewrite ?comprehension_map.
  - intros H. inversion H. split; [reflexivity | left; lia].
  - intros H. inversion H. split; [reflexivity | left; lia].
  - destruct (comprehension _ _) as [l|e'] eqn:Hc; simpl.
    + intros H. inversion H. split; [reflexivity | left; lia].
    + intros H. inversion H. subst.
      apply comprehension_Raise in Hc as (x & Hin & Hx).
      apply host_port_Raise in Hx as [Hv Hx].
      split; [unfold isinstance_any; simpl; rewrite Hv; reflexivity | left; lia].
  - destruct (comprehension _ _) as [l|e'] eqn:Hc; simpl; [discriminate|].
    intros H. inversion H. subst.
    apply comprehension_Raise in Hc as (x & Hin & Hx).
    apply host_port_Raise in Hx as [Hv Hx].
    split; [unfold isinstance_any; simpl; rewrite Hv; reflexivity|].
    destruct Hx as [Hlen | (host & port & Hsp & Hint)].
    + right. right. exists x. auto.
    + right. left. exists x, host, port. auto.
Qed.

Lemma parse_connection_string_Ok (constring : string)
    (d : string * list address * string) :
  parse_connection_string constring = Ok d <-> denotes constring d.
Proof.
  rewrite <- parse_body_Ok. unfold parse_connection_string, rtry.
  destruct (parse_body constring) as [d'|e]; [reflexivity|].
  destruct (isinstance_any _ _); split; discriminate.
Qed.

Lemma parse_connection_string_Raise (constring : string) (e : Exception) :
  parse_connection_string constring = Raise e ->
  e = incorrect_format constring /\ ill_formed constring.
Proof.
  unfold parse_connection_string, rtry.
  destruct (parse_body constring) as [d'|e'] eqn:Hb; [discriminate|].
  apply parse_body_Raise in Hb as [Hi Hb]. rewrite Hi.
  intros H. inversion H. split; [reflexivity|].
  unfold ill_formed. tauto.
Qed.

Lemma denotes_nonempty (constring : string) (d : string * list address * string) :
  denotes constring d -> d.1.2 <> [].
Proof.
  intros (hosts & rest & _ & HF) Hnil. rewrite Hnil in HF.
  inversion HF as [Hs|]. symmetry in Hs. exact (split_nonempty _ _ Hs).
Qed.

Lemma denotes_well_formed (constring : string) (d : string * list address * string) :
  denotes constring d -> ~ ill_formed constring.
Proof.
  intros (hosts & rest & Hs & HF).
  assert (Hall : forall endpoint, endpoint ∈ split "," hosts ->
                   exists a, endpoint_is endpoint a).
  { intros endpoint Hin. clear Hs.
    induction HF as [|x y xs ys Hxy _ IH]; [inversion Hin|].
    inversion Hin; subst; [exists y; assumption | apply IH; assumption]. }
  unfold ill_formed, missing_segment, non_integer_port, malformed_endpoint,
    empty_endpoint_list, endpoints.
  rewrite Hs. simpl.
  intros [Hm | [(ep & h & p & Hin & Hsp & Hint) | [(ep & Hin & Hlen) | He]]].
  - lia.
  - destruct (Hall ep Hin) as (a & p' & Hsp' & Hint').
    rewrite Hsp in Hsp'. inversion Hsp'. subst. exact (Hint _ Hint').
  - destruct (Hall ep Hin) as (a & p' & Hsp' & _).
    rewrite Hsp' in Hlen. apply Hlen. reflexivity.
  - inversion He. subst.
    destruct (Hall "" ltac:(left)) as (a & p' & Hsp' & _). discriminate.
Qed.

Lemma parse_connection_string_ill_formed (constring : string) :
  ill_formed constring ->
  parse_connection_string constring = Raise (incorrect_format constring).
Proof.
  intros Hill.
  destruct (parse_connection_string constring) as [d|e] eqn:Hp.
  - apply parse_connection_string_Ok in Hp.
    destruct (denotes_well_formed _ _ Hp Hill).
  - apply parse_connection_string_Raise in Hp as [-> _]. reflexivity.
Qed.

(** C5, as the parser has it: a connection string with a missing
    segment, a port that is not an integer, a malformed endpoint or an
    empty endpoint list is refused with ImproperlyConfigured carrying
    the string; every other string yields the whole descriptor it
    denotes, never a part of it: the first segment as the name, one
    (host, integer port) pair for each endpoint of the second, at least
    one, and the third segment as the db. The name, a host and the db
    are taken as they stand, empty or not. In particular
    "mymaster/bad/0" is refused and "mymaster/host:1234/0" yields the
    single endpoint ("host", 1234). *)
Theorem parse_connection_string_all_or_nothing (constring : string) :
  (ill_formed constring ->
   parse_connection_string constring = Raise (incorrect_format constring)) /\
  (~ ill_formed constring ->
   exists d, parse_connection_string constring = Ok d /\
             denotes constring d /\ d.1.2 <> []) /\
  parse_connection_string "mymaster/bad/0"
    = Raise (ImproperlyConfigured "Incorrect format 'mymaster/bad/0'") /\
  parse_connection_string "mymaster/host:1234/0"
    = Ok ("mymaster", [("host", 1234)], "0").
Proof.
  split; [|split; [|split; reflexivity]].
  - apply parse_connection_string_ill_formed.
  - intros Hwf.
    destruct (parse_connection_string constring) as [d|e] eqn:Hp.
    + apply parse_connection_string_Ok in Hp. exists d.
      split; [reflexivity|]. split; [assumption|].
      eapply denotes_nonempty; eassumption.
    + apply parse_connection_string_Raise in Hp as [_ Hill].
      destruct (Hwf Hill).
Qed.

Lemma parse_connection_string_all_or_nothing_witness :
  ill_formed "mymaster/bad/0" /\
  parse_connection_string "mymaster/bad/0"
    = Raise (incorrect_format "mymaster/bad/0").
Proof.
  assert (H : ill_formed "mymaster/bad/0").
  { right. right. left. exists "bad". split; [left | vm_compute; discriminate]. }
  split; [exact H|].
  exact (proj1 (parse_connection_string_all_or_nothing "mymaster/bad/0") H).
Defined.

(** C5, as stated, fails: a string with none of the four defects
    yields a descriptor that is not valid, its db index being empty. *)
Lemma parse_connection_string_empty_db :
  ~ ill_formed "mymaster/host:1234/" /\
  parse_connection_string "mymaster/host:1234/" = Ok ("mymaster", [("host", 1234)], "") /\
  ~ descriptor_valid ("mymaster", [("host", 1234)], "").
Proof.
  assert (Hp : parse_connection_string "mymaster/host:1234/"
               = Ok ("mymaster", [("host", 1234)], "")) by reflexivity.
  split; [|split; [exact Hp|]].
  - apply parse_connection_string_Ok in Hp.
    exact (denotes_well_formed _ _ Hp).
  - intros (_ & _ & _ & H). apply H. reflexivity.
Qed.

(** *** Fields and separators *)

Lemma split_fields (sep : ascii) (s : string) :
  Forall (fun field => contains sep field = false) (split sep s).
Proof.
  induction s as [|c rest IH]; simpl.
  - constructor; [reflexivity | constructor].
  - destruct (Ascii.eqb c sep) eqn:Hc.
    + constructor; [reflexivity | exact IH].
    + destruct (split sep rest) as [|field fields].
      * constructor; [simpl; rewrite Hc; reflexivity | constructor].
      * inversion IH; subst. constructor; [simpl; rewrite Hc|]; assumption.
Qed.

Lemma split_append_sep (sep : ascii) (field rest : string) :
  contains sep field = false ->
  split sep (field ++ String sep rest) = field :: split sep rest.
Proof.
  induction field as [|c field IH]; simpl; intros H.
  - rewrite Ascii.eqb_refl. reflexivity.
  - apply orb_false_iff in H as [Hc H]. rewrite Hc, (IH H). reflexivity.
Qed.

Lemma split_single (sep : ascii) (field : string) :
  contains sep field = false -> split sep field = [field].
Proof.
  induction field as [|c field IH]; simpl; intros H; [reflexivity|].
  apply orb_false_iff in H as [Hc H]. rewrite Hc, (IH H). reflexivity.
Qed.

Lemma split_three (name hosts db : string) (rest : list string) (s : string) :
  split "/" s = name :: hosts :: db :: rest ->
  split "/" (name ++ "/" ++ hosts ++ "/" ++ db) = [name; hosts; db].
Proof.
  intros Hs. pose proof (split_fields "/" s) as HF. rewrite Hs in HF.
  inversion HF as [|? ? Hn HF1]; subst.
  inversion HF1 as [|? ? Hh HF2]; subst.
  inversion HF2 as [|? ? Hd _]; subst.
  change ("/" ++ hosts ++ "/" ++ db) with (String "/" (hosts ++ String "/" db)).
  rewrite (split_append_sep _ _ _ Hn), (split_append_sep _ _ _ Hh),
    (split_single _ _ Hd).
  reflexivity.
Qed.

(** C8, as the parser has it: a connection string is accepted only if
    it has at least three segments, and one with fewer than three is
    refused with ImproperlyConfigured; segments after the third are
    ignored, the descriptor being that of the first three alone. *)
Theorem parse_connection_string_segments (constring : string) :
  (forall d, parse_connection_string constring = Ok d ->
             (3 <= length (split "/" constring))%nat) /\
  ((length (split "/" constring) < 3)%nat ->
   parse_connection_string constring = Raise (incorrect_format constring)) /\
  (forall name hosts db rest d,
     split "/" constring = name :: hosts :: db :: rest ->
     (parse_connection_string constring = Ok d <->
      parse_connection_string (name ++ "/" ++ hosts ++ "/" ++ db) = Ok d)).
Proof.
  split; [|split].
  - intros d Hp. apply parse_connection_string_Ok in Hp as (h & r & Hs & _).
    rewrite Hs. simpl. lia.
  - intros Hlen.
    apply parse_connection_string_ill_formed.
    left. exact Hlen.
  - intros name hosts db rest d Hs.
    rewrite !parse_connection_string_Ok. unfold denotes.
    rewrite (split_three _ _ _ _ _ Hs), Hs.
    split; intros (h & r & Heq & HF); inversion Heq; subst; eauto.
Qed.

Lemma parse_connection_string_segments_witness :
  (length (split "/" "mymaster/host:1234") < 3)%nat /\
  parse_connection_string "mymaster/host:1234"
    = Raise (incorrect_format "mymaster/host:1234").
Proof.
  assert (H : (length (split "/" "mymaster/host:1234") < 3)%nat)
    by (vm_compute; lia).
  split; [exact H|].
  exact (proj1 (proj2 (parse_connection_string_segments "mymaster/host:1234")) H).
Defined.

(** C8, as stated, fails: a string of four segments is accepted, and the
    fourth segment is dropped. *)
Lemma parse_connection_string_four_segments :
  length (split "/" "mymaster/host:1234/0/extra") = 4%nat /\
  parse_connection_string "mymaster/host:1234/0/extra"
    = Ok ("mymaster", [("host", 1234)], "0").
Proof. split; reflexivity. Qed.

(** C9, as the parser has it: a descriptor it returns has at least one
    endpoint, each one the host and the integer port of an endpoint of
    the second segment, in order; the cluster name and the db index are
    the first and third segments as they stand, empty or not. A string
    whose endpoint list is empty is refused. *)
Theorem parse_connection_string_descriptor (constring : string) :
  (forall name hosts db,
     parse_connection_string constring = Ok (name, hosts, db) ->
     (1 <= length hosts)%nat /\
     split "/" constring !! 0%nat = Some name /\
     split "/" constring !! 2%nat = Some db /\
     Forall2 endpoint_is (endpoints constring) hosts) /\
  (empty_endpoint_list constring ->
   parse_connection_string constring = Raise (incorrect_format constring)).
Proof.
  split.
  - intros name hosts db Hp. apply parse_connection_string_Ok in Hp as Hd.
    pose proof (denotes_nonempty _ _ Hd) as Hne.
    destruct Hd as (h & r & Hs & HF). simpl in *.
    unfold endpoints. rewrite Hs. simpl.
    repeat split; try assumption.
    destruct hosts; [congruence | simpl; lia].
  - intros He.
    apply parse_connection_string_ill_formed.
    right. right. right. exact He.
Qed.

Lemma parse_connection_string_descriptor_witness :
  parse_connection_string "cluster1/h1:1,h2:2/3"
    = Ok ("cluster1", [("h1", 1); ("h2", 2)], "3") /\
  (1 <= length [("h1", 1); ("h2", 2)])%nat /\
  Forall2 endpoint_is (endpoints "cluster1/h1:1,h2:2/3") [("h1", 1); ("h2", 2)].
Proof.
  assert (H : parse_connection_string "cluster1/h1:1,h2:2/3"
              = Ok ("cluster1", [("h1", 1); ("h2", 2)], "3")) by reflexivity.
  split; [exact H|].
  destruct (proj1 (parse_connection_string_descriptor "cluster1/h1:1,h2:2/3")
              _ _ _ H) as (H1 & _ & _ & H4).
  split; [exact H1 | exact H4].
Defined.

(** C9, as stated, fails: a string whose cluster name, host and db index
    are all empty is accepted. *)
Lemma parse_connection_string_empty_fields :
  parse_connection_string "/:1234/" = Ok ("", [("", 1234)], "") /\
  ~ descriptor_valid ("", [("", 1234)], "").
Proof.
  split; [reflexivity|]. intros (H & _). apply H. reflexivity.
Qed.

(** ** The monad and the state *)

Lemma clock_add_event (ev : Event) (s : State) :
  clock (add_event ev s) = S (clock s).
Proof. unfold clock. simpl. rewrite length_app. simpl. lia. Qed.

Lemma clock_add_log (msg : string) (s : State) :
  clock (add_log msg s) = clock s.
Proof. reflexivity. Qed.

Section Unfolding.

Context (env : Env).

Lemma choose_endpoint_write (sentinel : SentinelObj) (name : string) (s : State) :
  choose_endpoint env true sentinel name s
  = (sentinel_discover_master env (clock s) sentinel name,
     add_event (DiscoverMaster name) s).
Proof. reflexivity. Qed.

Lemma random_choice_position {A} (seq : list A) (s : State) :
  seq <> [] ->
  exists x,
    seq !! (random_draw env (clock s) (length seq) mod length seq)%nat = Some x /\
    random_choice env seq s = (Ok x, add_event (RandomChoice (length seq)) s).
Proof.
  intros Hne. unfold random_choice.
  destruct (seq !! _) as [x|] eqn:Hx; [exists x; auto|].
  apply lookup_ge_None in Hx.
  assert (length seq <> 0%nat) by (destruct seq; [congruence | simpl; lia]).
  pose proof (Nat.mod_upper_bound (random_draw env (clock s) (length seq))
                (length seq) ltac:(assumption)).
  lia.
Qed.

Lemma choose_endpoint_read_replica (sentinel : SentinelObj) (name : string)
    (s : State) (slaves : list address) :
  sentinel_discover_slaves env (clock s) sentinel name = Ok slaves ->
  slaves <> [] ->
  exists a,
    slaves !! (random_draw env (S (clock s)) (length slaves) mod length slaves)%nat
      = Some a /\
    choose_endpoint env false sentinel name s
    = (Ok a, add_event (RandomChoice (length slaves))
               (add_event (DiscoverSlaves name) s)).
Proof.
  intros Hs Hne.
  destruct (random_choice_position slaves (add_event (DiscoverSlaves name) s) Hne)
    as (a & Ha & Hc).
  rewrite clock_add_event in Ha. exists a. split; [exact Ha|].
  unfold choose_endpoint, try_except, bind, discover_slaves.
  rewrite Hs, Hc. reflexivity.
Qed.

Lemma choose_endpoint_read_fallback (sentinel : SentinelObj) (name : string)
    (s : State) :
  sentinel_discover_slaves env (clock s) sentinel name = Ok [] ->
  choose_endpoint env false sentinel name s
  = (sentinel_discover_master env (S (S (clock s))) sentinel name,
     add_event (DiscoverMaster name)
       (add_log "no slaves are available. using master for read."
          (add_event (RandomChoice 0) (add_event (DiscoverSlaves name) s)))).
Proof.
  intros Hs.
  unfold choose_endpoint, try_except, bind, discover_slaves, random_choice.
  rewrite Hs. simpl.
  unfold discover_master, log_debug, modify.
  rewrite clock_add_log, !clock_add_event. reflexivity.
Qed.

(** [choose_endpoint] touches nothing but the trace and the log. *)
Lemma choose_endpoint_frame (write : bool) (sentinel : SentinelObj) (name : string)
    (s s' : State) (r : result address) :
  choose_endpoint env write sentinel name s = (r, s') ->
  _client_write s' = _client_write s /\ _client_read s' = _client_read s /\
  _connection_string s' = _connection_string s /\ _options s' = _options s /\
  store s' = store s /\ exists new, trace s' = (trace s ++ new)%list.
Proof.
  destruct write.
  - rewrite choose_endpoint_write. intros H. inversion H. subst. simpl.
    repeat split. eexists. reflexivity.
  - unfold choose_endpoint, try_except, bind, discover_slaves, random_choice,
      discover_master, log_debug, modify.
    intros Heq.
    repeat case_match; simplify_eq; simpl;
      repeat split; rewrite <- ?app_assoc; eexists; reflexivity.
Qed.

Lemma connect_eq (write : bool) (s : State) :
  connect env write s =
  let s1 := add_log (connect_called write) s in
  match parse_connection_string (_connection_string s) with
  | Raise e => (Raise e, s1)
  | Ok parsed =>
      let sentinel := sentinel_of s parsed.1.2 in
      match choose_endpoint env write sentinel parsed.1.1
              (add_event (SentinelInit sentinel) s1) with
      | (Raise e, s3) => (Raise e, s3)
      | (Ok a, s3) =>
          connection_factory_connect env (url_of s a parsed.2)
            (add_log ("Connecting to: " ++ url_of s a parsed.2) s3)
      end
  end.
Proof.
  unfold connect, bind, log_debug, modify, gets, lift, emit. simpl.
  destruct (parse_connection_string _) as [[[name hosts] db]|e]; [|reflexivity].
  reflexivity.
Qed.

Lemma get_client_eq (write show_index : bool) (s : State) :
  get_client env write show_index s =
  match slot write s with
  | Some c => (Ok (client_result show_index c), add_log (get_client_called write) s)
  | None =>
      match connect env write (add_log (get_client_called write) s) with
      | (Ok c, s') => (Ok (client_result show_index c), set_slot write (Some c) s')
      | (Raise e, s') => (Raise e, s')
      end
  end.
Proof.
  unfold get_client, bind, log_debug, modify, gets, ret, slot, set_slot,
    client_result.
  destruct write; simpl.
  - destruct (_client_write s); [reflexivity|].
    destruct (connect env true _) as [[c|e] s']; reflexivity.
  - destruct (_client_read s); [reflexivity|].
    destruct (connect env false _) as [[c|e] s']; reflexivity.
Qed.

End Unfolding.

(** ** What connect changes *)

Section Frames.

Context (env : Env).

Lemma connection_factory_connect_eq (url : string) (s : State) :
  connection_factory_connect env url s =
  match factory_connect env (clock s) url with
  | Ok pool =>
      (Ok (length (store s)),
       add_object (mkClient url pool) (add_event (FactoryConnect url) s))
  | Raise e => (Raise e, add_event (FactoryConnect url) s)
  end.
Proof. reflexivity. Qed.

Lemma connect_frame (write : bool) (s s' : State) (r : result ref) :
  connect env write s = (r, s') ->
  _client_write s' = _client_write s /\ _client_read s' = _client_read s /\
  _connection_string s' = _connection_string s /\ _options s' = _options s.
Proof.
  rewrite connect_eq. simpl.
  destruct (parse_connection_string _) as [parsed|e].
  - destruct (choose_endpoint _ _ _ _ _) as [[a|e] s3] eqn:Hc;
      apply choose_endpoint_frame in Hc as (Hw & Hr & Hcs & Ho & _).
    + rewrite connection_factory_connect_eq.
      destruct (factory_connect _ _ _); intros H; inversion H; subst; simpl; auto.
    + intros H. inversion H. subst. auto.
  - intros H. inversion H. subst. simpl. auto.
Qed.

Lemma connect_Ok (write : bool) (s s' : State) (c : ref) :
  connect env write s = (Ok c, s') ->
  c = length (store s) /\
  exists url pool, store s' = (store s ++ [mkClient url pool])%list.
Proof.
  rewrite connect_eq. simpl.
  destruct (parse_connection_string _) as [parsed|e]; [|discriminate].
  destruct (choose_endpoint _ _ _ _ _) as [[a|e] s3] eqn:Hc; [|discriminate].
  apply choose_endpoint_frame in Hc as (_ & _ & _ & _ & Hst & _).
  rewrite connection_factory_connect_eq.
  destruct (factory_connect _ _ _) as [pool|e]; [|discriminate].
  intros H. inversion H. subst. simpl in *. rewrite Hst. simpl.
  split; [reflexivity|]. eauto.
Qed.

Lemma connect_Raise (write : bool) (s s' : State) (e : Exception) :
  connect env write s = (Raise e, s') -> store s' = store s.
Proof.
  rewrite connect_eq. simpl.
  destruct (parse_connection_string _) as [parsed|e'].
  - destruct (choose_endpoint _ _ _ _ _) as [[a|e'] s3] eqn:Hc;
      apply choose_endpoint_frame in Hc as (_ & _ & _ & _ & Hst & _).
    + rewrite connection_factory_connect_eq.
      destruct (factory_connect _ _ _); intros H; inversion H; subst; simpl; auto.
    + intros H. inversion H. subst. auto.
  - intros H. inversion H. subst. reflexivity.
Qed.

Lemma slot_set_slot (write write' : bool) (c : option ref) (s : State) :
  slot write (set_slot write' c s) = if Bool.eqb write write' then c else slot write s.
Proof. destruct write, write'; reflexivity. Qed.

Lemma slot_add_log (write : bool) (msg : string) (s : State) :
  slot write (add_log msg s) = slot write s.
Proof. destruct write; reflexivity. Qed.

Lemma slot_frame (write : bool) (s s' : State) :
  _client_write s' = _client_write s -> _client_read s' = _client_read s ->
  slot write s' = slot write s.
Proof. intros Hw Hr. destruct write; simpl; assumption. Qed.

(** A filled slot survives every [get_client] call. *)
Lemma get_client_keeps_slot (write write' show_index : bool) (s : State) (c : ref) :
  slot write s = Some c ->
  slot write (exec (get_client env write' show_index) s) = Some c.
Proof.
  intros Hs. unfold exec. rewrite get_client_eq.
  destruct (slot write' s) as [c'|] eqn:Hs'; simpl.
  - rewrite slot_add_log. exact Hs.
  - destruct (connect env write' _) as [[c'|e] s'] eqn:Hc; simpl;
      apply connect_frame in Hc as (Hw & Hr & _ & _).
    + rewrite slot_set_slot.
      destruct (Bool.eqb write write') eqn:Hb.
      * apply Bool.eqb_prop in Hb. subst. congruence.
      * rewrite (slot_frame _ _ _ Hw Hr), slot_add_log. exact Hs.
    + rewrite (slot_frame _ _ _ Hw Hr), slot_add_log. exact Hs.
Qed.

Lemma get_clients_keep_slot (write : bool) (calls : list (bool * bool))
    (s : State) (c : ref) :
  slot write s = Some c -> slot write (get_clients env calls s) = Some c.
Proof.
  revert s. induction calls as [|[w si] rest IH]; intros s Hs; simpl;
    [exact Hs|].
  apply IH. apply get_client_keeps_slot. exact Hs.
Qed.

(** A successful [get_client] leaves its client in the slot. *)
Lemma get_client_fills_slot (write show_index : bool) (s s' : State)
    (r : ClientResult) :
  get_client env write show_index s = (Ok r, s') ->
  r = client_result show_index (client_of r) /\ slot write s' = Some (client_of r).
Proof.
  rewrite get_client_eq.
  destruct (slot write s) as [c|] eqn:Hs.
  - intros H. inversion H. subst. rewrite slot_add_log.
    destruct show_index; simpl; auto.
  - destruct (connect env write _) as [[c|e] s1] eqn:Hc; [|discriminate].
    intros H. inversion H. subst. rewrite slot_set_slot, Bool.eqb_reflx.
    destruct show_index; simpl; auto.
Qed.

End Frames.

(** ** The cache of clients *)

(** C10: with [show_index] true, [get_client] returns the pair of the
    client and the index 0, for writes and for reads, whether the client
    comes from the slot or was just built. *)
Theorem get_client_show_index (env : Env) (write : bool) (s : State) :
  (forall r s', get_client env write true s = (Ok r, s') ->
     exists c, r = ClientWithIndex c 0 /\ slot write s' = Some c) /\
  (forall c, slot write s = Some c ->
     run (get_client env write true) s = Ok (ClientWithIndex c 0)) /\
  (forall c s', slot write s = None ->
     connect env write (add_log (get_client_called write) s) = (Ok c, s') ->
     run (get_client env write true) s = Ok (ClientWithIndex c 0)).
Proof.
  split; [|split].
  - intros r s' H. apply get_client_fills_slot in H as [Hr Hs].
    exists (client_of r). split; assumption.
  - intros c Hs. unfold run. rewrite get_client_eq, Hs. reflexivity.
  - intros c s' Hs Hc. unfold run. rewrite get_client_eq, Hs, Hc. reflexivity.
Qed.

Lemma get_client_show_index_witness :
  run (get_client (Example.env true) true true) Example.start
    = Ok (ClientWithIndex 0%nat 0) /\
  run (get_client (Example.env true) false true)
      (exec (get_client (Example.env true) false false) Example.start)
    = Ok (ClientWithIndex 0%nat 0).
Proof.
  split.
  - apply (proj2 (proj2 (get_client_show_index (Example.env true) true
                           Example.start))
             0%nat
             (exec (connect (Example.env true) true)
                   (add_log (get_client_called true) Example.start)));
      reflexivity.
  - apply (proj1 (proj2 (get_client_show_index (Example.env true) false _))).
    reflexivity.
Defined.

(** What a successful [connect] has built: a new client object, placed
    at the end of the store, whose url is the one of the last
    collaborator call, the call of the connection factory, and whose
    pool is the one the factory answered with. *)
Lemma connect_built (env : Env) (write : bool) (s s' : State) (c : ref) :
  connect env write s = (Ok c, s') ->
  c = length (store s) /\
  exists url pool before,
    store s' = (store s ++ [mkClient url pool])%list /\
    trace s' = (before ++ [FactoryConnect url])%list /\
    factory_connect env (length before) url = Ok pool.
Proof.
  rewrite connect_eq. simpl.
  destruct (parse_connection_string _) as [parsed|e]; [|discriminate].
  destruct (choose_endpoint _ _ _ _ _) as [[a|e] s3] eqn:Hc; [|discriminate].
  apply choose_endpoint_frame in Hc as (_ & _ & _ & _ & Hst & _).
  rewrite connection_factory_connect_eq, clock_add_log.
  destruct (factory_connect _ _ _) as [pool|e] eqn:Hf; [|discriminate].
  intros H. inversion H. subst. simpl in *. rewrite Hst. simpl.
  split; [reflexivity|].
  exists (url_of s a parsed.2), pool, (trace s3).
  split; [reflexivity|]. split; [reflexivity|]. exact Hf.
Qed.

(** C6: a [get_client] that finds the slot of its mode empty and whose
    [connect] succeeds returns the client [connect] has just built, a
    new object made by the connection factory, and leaves it in that
    slot; a [get_client] that finds a client in the slot returns that
    client. So once [get_client] has returned a client for a mode, every
    further call for the same mode returns the very same client and asks
    the collaborators nothing, however many [get_client] calls of either
    mode come between. *)
Theorem get_client_cached (env : Env) (write show_index : bool) (s : State) :
  (forall c s',
     slot write s = None ->
     connect env write (add_log (get_client_called write) s) = (Ok c, s') ->
     let s1 := set_slot write (Some c) s' in
     get_client env write show_index s = (Ok (client_result show_index c), s1) /\
     slot write s1 = Some c /\
     c = length (store s) /\
     (exists url pool before,
        store s1 !! c = Some (mkClient url pool) /\
        trace s1 = (before ++ [FactoryConnect url])%list /\
        factory_connect env (length before) url = Ok pool) /\
     forall calls,
       let s2 := get_clients env calls s1 in
       get_client env write show_index s2
       = (Ok (client_result show_index c), add_log (get_client_called write) s2) /\
       new_events s2 (exec (get_client env write show_index) s2) = []) /\
  (forall c,
     slot write s = Some c ->
     get_client env write show_index s
     = (Ok (client_result show_index c), add_log (get_client_called write) s)) /\
  (forall r s1,
     get_client env write show_index s = (Ok r, s1) ->
     slot write s1 = Some (client_of r) /\
     forall calls,
       let s2 := get_clients env calls s1 in
       get_client env write show_index s2
       = (Ok r, add_log (get_client_called write) s2) /\
       new_events s2 (exec (get_client env write show_index) s2) = []).
Proof.
  assert (Hagain : forall s1 c calls,
            slot write s1 = Some c ->
            let s2 := get_clients env calls s1 in
            get_client env write show_index s2
            = (Ok (client_result show_index c), add_log (get_client_called write) s2) /\
            new_events s2 (exec (get_client env write show_index) s2) = []).
  { intros s1 c calls Hs s2.
    assert (Hg : get_client env write show_index s2
                 = (Ok (client_result show_index c),
                    add_log (get_client_called write) s2)).
    { rewrite get_client_eq. unfold s2.
      rewrite (get_clients_keep_slot env write calls s1 _ Hs). reflexivity. }
    split; [exact Hg|]. unfold exec. rewrite Hg. unfold new_events. simpl.
    apply drop_all. }
  split; [|split].
  - intros c s' Hs Hc s1.
    assert (Hslot : slot write s1 = Some c)
      by (unfold s1; rewrite slot_set_slot, Bool.eqb_reflx; reflexivity).
    split; [rewrite get_client_eq, Hs, Hc; reflexivity|].
    split; [exact Hslot|].
    apply connect_built in Hc as (Hc & url & pool & before & Hst & Ht & Hf).
    simpl in Hc.
    split; [exact Hc|]. split.
    + exists url, pool, before.
      assert (Hst1 : store s1 = store s') by (unfold s1; destruct write; reflexivity).
      assert (Ht1 : trace s1 = trace s') by (unfold s1; destruct write; reflexivity).
      rewrite Hst1, Ht1, Hst. simpl. split; [|split; assumption].
      rewrite Hc, lookup_app_r by reflexivity. rewrite Nat.sub_diag. reflexivity.
    + intros calls. exact (Hagain s1 c calls Hslot).
  - intros c Hs. rewrite get_client_eq, Hs. reflexivity.
  - intros r s1 H. apply get_client_fills_slot in H as [Hr Hs].
    split; [exact Hs|]. intros calls s2.
    destruct (Hagain s1 (client_of r) calls Hs) as [H1 H2].
    fold s2 in H1, H2. rewrite <- Hr in H1. split; assumption.
Qed.

Lemma get_client_cached_witness :
  let env := Example.env false in
  let s := exec (get_client env true false) Example.start in
  let s1 := exec (get_client env false false) s in
  get_client env false false s = (Ok (Client 1%nat), s1) /\
  store s1 !! 1%nat = Some (mkClient "redis://h3:3/3" [60%nat; 61%nat]) /\
  get_client env false false s1
  = (Ok (Client 1%nat), add_log "get_client called: write=False" s1) /\
  run (get_client env false false) (get_clients env [(true, false); (false, true)] s1)
  = Ok (Client 1%nat).
Proof.
  intros env s s1.
  pose (s' := exec (connect env false) (add_log (get_client_called false) s)).
  assert (Hs1 : s1 = set_slot false (Some 1%nat) s') by (vm_compute; reflexivity).
  destruct (proj1 (get_client_cached env false false s) 1%nat s' eq_refl eq_refl)
    as (H1 & _ & _ & _ & H5).
  rewrite Hs1.
  split; [exact H1|]. split; [vm_compute; reflexivity|].
  split; [exact (proj1 (H5 []))|].
  destruct (H5 [(true, false); (false, true)]) as [H6 _].
  exact (f_equal fst H6).
Defined.

(** ** Discovery and its failures *)

Section Discovery.

Context (env : Env).

Lemma connect_in_get_client (write : bool) (s : State) :
  connect env write (add_log (get_client_called write) s) =
  let s1 := add_log (connect_called write) (add_log (get_client_called write) s) in
  match parse_connection_string (_connection_string s) with
  | Raise e => (Raise e, s1)
  | Ok parsed =>
      let sentinel := sentinel_of s parsed.1.2 in
      match choose_endpoint env write sentinel parsed.1.1
              (add_event (SentinelInit sentinel) s1) with
      | (Raise e, s3) => (Raise e, s3)
      | (Ok a, s3) =>
          connection_factory_connect env (url_of s a parsed.2)
            (add_log ("Connecting to: " ++ url_of s a parsed.2) s3)
      end
  end.
Proof. rewrite connect_eq. reflexivity. Qed.

Lemma connect_fails_iff (write : bool) (s : State) (e : Exception) :
  (exists s', connect env write (add_log (get_client_called write) s) = (Raise e, s'))
  <-> connect_fails env write s e.
Proof.
  rewrite connect_in_get_client. simpl. split.
  - intros (s' & H).
    destruct (parse_connection_string _) as [parsed|e'] eqn:Hp.
    + destruct (choose_endpoint _ _ _ _ _) as [[a|e'] s3] eqn:Hc.
      * rewrite connection_factory_connect_eq in H.
        rewrite clock_add_log in H.
        destruct (factory_connect _ _ _) as [pool|e'] eqn:Hf; [discriminate|].
        inversion H. subst.
        eapply factory_fails; [exact Hp | exact Hc | exact Hf].
      * inversion H. subst. eapply discovery_fails; [exact Hp | exact Hc].
    + inversion H. subst. apply parse_fails. exact Hp.
  - intros [Hp | parsed s3 Hp Hc | parsed a s3 Hp Hc Hf]; rewrite Hp.
    + eexists. reflexivity.
    + rewrite Hc. eexists. reflexivity.
    + rewrite Hc, connection_factory_connect_eq, clock_add_log, Hf.
      eexists. reflexivity.
Qed.

End Discovery.

(** C7: when [get_client] finds its slot empty and a step of [connect]
    fails (the connection string does not parse, the discovery raises,
    or the connection factory raises), [get_client] raises that very
    exception, both slots are as they were, so the slot is still empty,
    and no client object was created; and [get_client] raises in no
    other way. *)
Theorem get_client_failure (env : Env) (write show_index : bool) (s : State)
    (e : Exception) :
  slot write s = None ->
  (connect_fails env write s e ->
   exists s', get_client env write show_index s = (Raise e, s') /\
              slot write s' = None /\
              _client_write s' = _client_write s /\
              _client_read s' = _client_read s /\
              store s' = store s) /\
  (forall s', get_client env write show_index s = (Raise e, s') ->
              connect_fails env write s e /\ slot write s' = None /\
              store s' = store s).
Proof.
  intros Hs.
  assert (Hraise : forall s',
            connect env write (add_log (get_client_called write) s) = (Raise e, s') ->
            get_client env write show_index s = (Raise e, s') /\
            slot write s' = None /\
            _client_write s' = _client_write s /\
            _client_read s' = _client_read s /\
            store s' = store s).
  { intros s' Hc. rewrite get_client_eq, Hs, Hc.
    apply connect_frame in Hc as Hf. destruct Hf as (Hw & Hr & _ & _).
    apply connect_Raise in Hc. simpl in *.
    repeat split; try assumption.
    rewrite (slot_frame _ _ _ Hw Hr). exact Hs. }
  split.
  - intros Hf. apply connect_fails_iff in Hf as (s' & Hc).
    exists s'. apply Hraise. exact Hc.
  - intros s' Hg.
    assert (Hc : connect env write (add_log (get_client_called write) s)
                 = (Raise e, s')).
    { rewrite get_client_eq, Hs in Hg.
      destruct (connect env write _) as [[c|e'] s1]; [discriminate|].
      inversion Hg. reflexivity. }
    split; [apply connect_fails_iff; eauto|].
    destruct (Hraise s' Hc) as (_ & H1 & _ & _ & H2). auto.
Qed.

Lemma get_client_failure_witness :
  let e := MasterNotFoundError "No master found for 'cluster1'" in
  connect_fails Example.env_no_primary true Example.start e /\
  exists s', get_client Example.env_no_primary true false Example.start = (Raise e, s') /\
             slot true s' = None /\ store s' = [].
Proof.
  intros e.
  assert (Hf : connect_fails Example.env_no_primary true Example.start e).
  { eapply discovery_fails; reflexivity. }
  split; [exact Hf|].
  destruct (proj1 (get_client_failure Example.env_no_primary true false
                     Example.start e eq_refl) Hf)
    as (s' & Hg & Hs & _ & _ & Hst).
  exists s'. auto.
Defined.

Ltac new_events_simpl :=
  unfold new_events; simpl;
  first [rewrite drop_app_length
        | rewrite <- ?app_assoc; rewrite drop_app_length];
  simpl.

Section Runs.

Context (env : Env).

Lemma get_client_after_discovery (write show_index : bool) (s s3 : State)
    (name db : string) (hosts : list address) (a : address) :
  slot write s = None ->
  parse_connection_string (_connection_string s) = Ok (name, hosts, db) ->
  choose_endpoint env write (sentinel_of s hosts) name
    (discovering write s (sentinel_of s hosts)) = (Ok a, s3) ->
  get_client env write show_index s =
  match factory_connect env (clock s3) (url_of s a db) with
  | Ok pool => (Ok (client_result show_index (length (store s))),
                connected write (url_of s a db) pool s3)
  | Raise e => (Raise e, add_event (FactoryConnect (url_of s a db))
                           (add_log ("Connecting to: " ++ url_of s a db) s3))
  end.
Proof.
  intros Hs Hp Hc. rewrite get_client_eq, Hs, connect_in_get_client, Hp. simpl.
  unfold discovering in Hc. rewrite Hc, connection_factory_connect_eq.
  rewrite clock_add_log.
  apply choose_endpoint_frame in Hc as (_ & _ & _ & _ & Hst & _).
  destruct (factory_connect _ _ _); [|reflexivity].
  unfold connected. simpl. rewrite Hst. reflexivity.
Qed.

Lemma get_client_discovery_raises (write show_index : bool) (s s3 : State)
    (name db : string) (hosts : list address) (e : Exception) :
  slot write s = None ->
  parse_connection_string (_connection_string s) = Ok (name, hosts, db) ->
  choose_endpoint env write (sentinel_of s hosts) name
    (discovering write s (sentinel_of s hosts)) = (Raise e, s3) ->
  get_client env write show_index s = (Raise e, s3).
Proof.
  intros Hs Hp Hc. rewrite get_client_eq, Hs, connect_in_get_client, Hp. simpl.
  unfold discovering in Hc. rewrite Hc. reflexivity.
Qed.

(** The first collaborator calls of a [get_client] on an empty slot:
    the Sentinel is built, then asked for the primary (write) or for the
    replicas (read). *)
Lemma choose_endpoint_trace (write : bool) (sentinel : SentinelObj) (name : string)
    (s s' : State) (r : result address) :
  choose_endpoint env write sentinel name s = (r, s') ->
  exists rest,
    trace s' = (trace s ++ first_query write name :: rest)%list /\
    (write = true -> rest = []).
Proof.
  destruct write.
  - rewrite choose_endpoint_write. intros H. inversion H. subst. simpl.
    exists []. auto.
  - unfold choose_endpoint, try_except, bind, discover_slaves, random_choice,
      discover_master, log_debug, modify.
    intros Heq.
    repeat case_match; simplify_eq; simpl; rewrite <- ?app_assoc; simpl;
      eexists; (split; [reflexivity | discriminate]).
Qed.

Lemma get_client_discovers (write show_index : bool) (s : State)
    (name db : string) (hosts : list address) :
  slot write s = None ->
  parse_connection_string (_connection_string s) = Ok (name, hosts, db) ->
  exists rest,
    List.filter is_discovery
      (new_events s (exec (get_client env write show_index) s))
    = first_query write name :: rest /\
    (write = true -> rest = []).
Proof.
  intros Hs Hp.
  destruct (choose_endpoint env write (sentinel_of s hosts) name
              (discovering write s (sentinel_of s hosts))) as [[a|e] s3] eqn:Hc.
  - unfold exec.
    rewrite (get_client_after_discovery _ show_index _ _ _ _ _ _ Hs Hp Hc).
    apply choose_endpoint_trace in Hc as (rest & Ht & Hrest).
    exists (List.filter is_discovery rest).
    split; [|intros Hw; rewrite (Hrest Hw); reflexivity].
    unfold new_events, connected.
    destruct (factory_connect _ _ _); destruct write; simpl; rewrite Ht; simpl;
      rewrite <- !app_assoc, drop_app_length; simpl;
      rewrite List.filter_app; simpl; rewrite app_nil_r; reflexivity.
  - unfold exec.
    rewrite (get_client_discovery_raises _ show_index _ _ _ _ _ _ Hs Hp Hc).
    apply choose_endpoint_trace in Hc as (rest & Ht & Hrest).
    exists (List.filter is_discovery rest).
    split; [|intros Hw; rewrite (Hrest Hw); reflexivity].
    unfold new_events. simpl. rewrite Ht. simpl.
    rewrite <- !app_assoc, drop_app_length. destruct write; reflexivity.
Qed.

End Runs.

(** C4: a [get_client(write=True)] that finds the write slot empty puts
    one question to the Sentinels, for the primary of the master name of
    the connection string, and none for the replicas; when that call
    raises, [get_client] raises the same exception, nothing is asked of
    the connection factory and the slot stays empty. *)
Theorem get_client_write_discovery (env : Env) (show_index : bool) (s : State)
    (name db : string) (hosts : list address) :
  _client_write s = None ->
  parse_connection_string (_connection_string s) = Ok (name, hosts, db) ->
  let s' := exec (get_client env true show_index) s in
  List.filter is_discovery (new_events s s') = [DiscoverMaster name] /\
  (forall e,
     sentinel_discover_master env (S (clock s)) (sentinel_of s hosts) name = Raise e ->
     run (get_client env true show_index) s = Raise e /\
     new_events s s' = [SentinelInit (sentinel_of s hosts); DiscoverMaster name] /\
     _client_write s' = None).
Proof.
  intros Hs Hp s'. split.
  - destruct (get_client_discovers env true show_index s name db hosts Hs Hp)
      as (rest & Hf & Hrest).
    rewrite (Hrest eq_refl) in Hf. exact Hf.
  - intros e He. subst s'. unfold run, exec.
    rewrite (get_client_discovery_raises env true show_index s
               (add_event (DiscoverMaster name)
                  (discovering true s (sentinel_of s hosts)))
               name db hosts e Hs Hp).
    + simpl. split; [reflexivity|]. split; [|exact Hs]. new_events_simpl.
      reflexivity.
    + rewrite choose_endpoint_write. unfold discovering.
      rewrite clock_add_event, !clock_add_log, He. reflexivity.
Qed.

Lemma get_client_write_discovery_witness :
  let s' := exec (get_client Example.env_no_primary true false) Example.start in
  List.filter is_discovery (new_events Example.start s') = [DiscoverMaster "cluster1"] /\
  run (get_client Example.env_no_primary true false) Example.start
    = Raise (MasterNotFoundError "No master found for 'cluster1'") /\
  _client_write s' = None.
Proof.
  intros s'.
  destruct (get_client_write_discovery Example.env_no_primary false Example.start
              "cluster1" "3" [("h1", 1); ("h2", 2)] eq_refl eq_refl)
    as (H1 & H2).
  destruct (H2 (MasterNotFoundError "No master found for 'cluster1'") eq_refl)
    as (H3 & _ & H4).
  split; [exact H1|]. split; [exact H3 | exact H4].
Defined.

(** C3: a [get_client(write=False)] that finds the read slot empty asks
    the Sentinels for the replicas. When the list is not empty, the
    client is built from the url of the replica at the drawn position of
    the list, which is the draw itself when it is below the length, so
    that equally likely draws make equally likely positions. When the
    list is empty, the primary is asked for and the client is built from
    its url. In both cases the new client fills the read slot. *)
Theorem get_client_read_endpoint (env : Env) (show_index : bool) (s : State)
    (name db : string) (hosts : list address) :
  _client_read s = None ->
  parse_connection_string (_connection_string s) = Ok (name, hosts, db) ->
  let sentinel := sentinel_of s hosts in
  let t := S (clock s) in
  let c := length (store s) in
  (forall slaves,
     sentinel_discover_slaves env t sentinel name = Ok slaves ->
     slaves <> [] ->
     exists a,
       a ∈ slaves /\
       slaves !! (random_draw env (S t) (length slaves) mod length slaves)%nat
         = Some a /\
       ((random_draw env (S t) (length slaves) < length slaves)%nat ->
        slaves !! random_draw env (S t) (length slaves) = Some a) /\
       forall pool,
         factory_connect env (S (S t)) (url_of s a db) = Ok pool ->
         exists s',
           get_client env false show_index s = (Ok (client_result show_index c), s') /\
           _client_read s' = Some c /\
           store s' !! c = Some (mkClient (url_of s a db) pool) /\
           new_events s s'
           = [SentinelInit sentinel; DiscoverSlaves name;
              RandomChoice (length slaves); FactoryConnect (url_of s a db)]) /\
  (forall m pool,
     sentinel_discover_slaves env t sentinel name = Ok [] ->
     sentinel_discover_master env (S (S t)) sentinel name = Ok m ->
     factory_connect env (S (S (S t))) (url_of s m db) = Ok pool ->
     exists s',
       get_client env false show_index s = (Ok (client_result show_index c), s') /\
       _client_read s' = Some c /\
       store s' !! c = Some (mkClient (url_of s m db) pool) /\
       new_events s s'
       = [SentinelInit sentinel; DiscoverSlaves name; RandomChoice 0;
          DiscoverMaster name; FactoryConnect (url_of s m db)]).
Proof.
  intros Hs Hp sentinel t c.
  assert (Ht : clock (discovering false s sentinel) = t).
  { unfold discovering. rewrite clock_add_event, !clock_add_log. reflexivity. }
  split.
  - intros slaves Hsl Hne.
    destruct (choose_endpoint_read_replica env sentinel name
                (discovering false s sentinel) slaves) as (a & Ha & Hc);
      [rewrite Ht; exact Hsl | exact Hne |].
    rewrite Ht in Ha. exists a.
    split; [eapply list_elem_of_lookup_2; exact Ha|].
    split; [exact Ha|].
    split; [intros Hlt; rewrite Nat.mod_small in Ha by exact Hlt; exact Ha|].
    intros pool Hf.
    pose proof (get_client_after_discovery env false show_index s _ name db hosts a
                  Hs Hp Hc) as Hg.
    rewrite !clock_add_event, Ht, Hf in Hg.
    eexists. split; [exact Hg|]. unfold connected. simpl.
    split; [reflexivity|].
    split; [|new_events_simpl; reflexivity].
    rewrite lookup_app_r by reflexivity.
    rewrite Nat.sub_diag. reflexivity.
  - intros m pool Hsl Hm Hf.
    pose proof (choose_endpoint_read_fallback env sentinel name
                  (discovering false s sentinel)) as Hc.
    rewrite Ht in Hc. specialize (Hc Hsl). rewrite Hm in Hc.
    pose proof (get_client_after_discovery env false show_index s _ name db hosts m
                  Hs Hp Hc) as Hg.
    rewrite !clock_add_event, clock_add_log, !clock_add_event, Ht, Hf in Hg.
    eexists. split; [exact Hg|]. unfold connected. simpl.
    split; [reflexivity|].
    split; [|new_events_simpl; reflexivity].
    rewrite lookup_app_r by reflexivity.
    rewrite Nat.sub_diag. reflexivity.
Qed.

Lemma get_client_read_endpoint_witness :
  (exists s',
     get_client (Example.env true) false false Example.start = (Ok (Client 0%nat), s') /\
     store s' !! 0%nat = Some (mkClient "redis://h3:3/3" [30%nat; 31%nat])) /\
  (exists s',
     get_client Example.env_no_replica false false Example.start
       = (Ok (Client 0%nat), s') /\
     store s' !! 0%nat = Some (mkClient "redis://h1:1/3" [])).
Proof.
  split.
  - destruct (proj1 (get_client_read_endpoint (Example.env true) false Example.start
                       "cluster1" "3" [("h1", 1); ("h2", 2)] eq_refl eq_refl)
                [("h3", 3)] eq_refl ltac:(discriminate))
      as (a & Ha & Hpos & _ & Hrun).
    vm_compute in Hpos. inversion Hpos. subst a.
    destruct (Hrun [30%nat; 31%nat] eq_refl) as (s' & Hg & _ & Hst & _).
    exists s'. split; [exact Hg | exact Hst].
  - destruct (proj2 (get_client_read_endpoint Example.env_no_replica false
                       Example.start "cluster1" "3" [("h1", 1); ("h2", 2)]
                       eq_refl eq_refl)
                ("h1", 1) [] eq_refl eq_refl eq_refl)
      as (s' & Hg & _ & Hst & _).
    exists s'. split; [exact Hg | exact Hst].
Defined.

(** ** Closing *)

Lemma for_each_emit {A} (f : A -> Event) (l : list A) (s : State) :
  for_each l (fun x => emit (f x)) s = (Ok tt, add_events (map f l) s).
Proof.
  revert s. induction l as [|x rest IH]; intros s; simpl.
  - unfold ret, add_events. rewrite app_nil_r. destruct s; reflexivity.
  - unfold bind, emit, modify. rewrite IH. unfold add_events, add_event. simpl.
    rewrite <- app_assoc. reflexivity.
Qed.

Lemma disconnect_available_eq (env : Env) (c : ref) (s : State) :
  disconnect_available c s
  = (Ok tt, add_events (map Disconnect (pool_of s (Some c))) s).
Proof.
  unfold disconnect_available, bind, gets. rewrite for_each_emit. reflexivity.
Qed.

Lemma close_disabled (env : Env) (s : State) :
  DJANGO_REDIS_CLOSE_CONNECTION env = false ->
  close env s = (Ok tt, add_event CloseCalled s).
Proof.
  intros Hflag. unfold close, bind, emit, modify. rewrite Hflag. reflexivity.
Qed.

Lemma close_enabled (env : Env) (s : State) :
  DJANGO_REDIS_CLOSE_CONNECTION env = true ->
  close env s = (Ok tt, closed s).
Proof.
  intros Hflag. unfold close, bind, emit, modify, log_debug, gets. rewrite Hflag.
  simpl.
  destruct s as [cw cr cs opts st tr lg].
  destruct cr as [r|], cw as [w|]; simpl;
    rewrite ?(disconnect_available_eq env); unfold modify; simpl;
    rewrite ?(disconnect_available_eq env); unfold modify, closed; simpl;
    unfold set_client_read, set_client_write, add_events; simpl;
    rewrite <- ?app_assoc; simpl; rewrite ?app_nil_r; reflexivity.
Qed.

Lemma filter_is_disconnect_map (l : list nat) :
  List.filter is_disconnect (map Disconnect l) = map Disconnect l.
Proof. induction l as [|x rest IH]; simpl; [|rewrite IH]; reflexivity. Qed.

Lemma filter_is_close_map (l : list nat) :
  List.filter is_close (map Disconnect l) = [].
Proof. induction l as [|x rest IH]; simpl; [|rewrite IH]; reflexivity. Qed.

Lemma close_calls_close (env : Env) (s : State) :
  close_calls (exec (close env) s) = S (close_calls s).
Proof.
  unfold exec, close_calls.
  destruct (DJANGO_REDIS_CLOSE_CONNECTION env) eqn:Hflag.
  - rewrite (close_enabled env s Hflag). simpl.
    rewrite List.filter_app. simpl. rewrite List.filter_app.
    rewrite !filter_is_close_map. rewrite length_app. simpl. lia.
  - rewrite (close_disabled env s Hflag). simpl.
    rewrite List.filter_app, length_app. simpl. lia.
Qed.

(** What [close] does: when DJANGO_REDIS_CLOSE_CONNECTION is set,
    [close] disconnects the idle connections of the cached read client
    and of the cached write client and leaves both slots empty, so that
    the next [get_client] of either mode starts with a fresh discovery
    and a second [close] disconnects nothing; when the setting is not
    set, [close] changes nothing: both slots keep what they hold and no
    connection is disconnected. *)
Theorem close_clears_when_enabled (env : Env) (s : State) :
  let s' := exec (close env) s in
  (DJANGO_REDIS_CLOSE_CONNECTION env = true ->
   _client_write s' = None /\ _client_read s' = None /\
   List.filter is_disconnect (new_events s s')
   = map Disconnect (pool_of s (_client_read s) ++ pool_of s (_client_write s)) /\
   List.filter is_disconnect (new_events s' (exec (close env) s')) = [] /\
   (forall write show_index name hosts db,
      parse_connection_string (_connection_string s) = Ok (name, hosts, db) ->
      exists rest,
        List.filter is_discovery
          (new_events s' (exec (get_client env write show_index) s'))
        = first_query write name :: rest)) /\
  (DJANGO_REDIS_CLOSE_CONNECTION env = false ->
   _client_write s' = _client_write s /\ _client_read s' = _client_read s /\
   store s' = store s /\ new_events s s' = [CloseCalled]).
Proof.
  intros s'. subst s'. unfold exec. split; intros Hflag.
  - rewrite (close_enabled env s Hflag). simpl.
    split; [reflexivity|]. split; [reflexivity|]. split; [|split].
    + new_events_simpl. rewrite List.filter_app, !filter_is_disconnect_map.
      rewrite map_app. reflexivity.
    + rewrite (close_enabled env (closed s) Hflag). new_events_simpl. reflexivity.
    + intros write show_index name hosts db Hp.
      destruct (get_client_discovers env write show_index (closed s) name db hosts)
        as (rest & Hf & _).
      * destruct write; reflexivity.
      * exact Hp.
      * exists rest. exact Hf.
  - rewrite (close_disabled env s Hflag). simpl.
    repeat split. new_events_simpl. reflexivity.
Qed.

Lemma close_clears_when_enabled_witness :
  let env := Example.env true in
  let s := get_clients env [(true, false); (false, false)] Example.start in
  let s' := exec (close env) s in
  _client_write s = Some 0%nat /\ _client_read s = Some 1%nat /\
  _client_write s' = None /\ _client_read s' = None /\
  List.filter is_disconnect (new_events s s')
  = [Disconnect 60; Disconnect 61; Disconnect 20; Disconnect 21] /\
  List.filter is_disconnect (new_events s' (exec (close env) s')) = [].
Proof.
  intros env s s'.
  destruct (proj1 (close_clears_when_enabled env s) eq_refl)
    as (H1 & H2 & H3 & H4 & _).
  split; [vm_compute; reflexivity|]. split; [vm_compute; reflexivity|].
  split; [exact H1|]. split; [exact H2|]. split; [|exact H4].
  unfold s'. rewrite H3. vm_compute. reflexivity.
Defined.

(** C1: [close] is to leave both slots empty whatever the setting, as
    the wrapper says where it calls it ("closing old connections to
    reinitialize client"). The code does not: without
    DJANGO_REDIS_CLOSE_CONNECTION, the default, a cached write client
    survives [close], and the next [get_client] returns it without
    asking the Sentinels anything; it also survives a wrapped operation
    that loses its connection, although the wrapper then raises
    "closing old connections". *)
Lemma close_keeps_clients_when_disabled :
  let env := Example.env false in
  let s := exec (get_client env true false) Example.start in
  let s' := exec (close env) s in
  DJANGO_REDIS_CLOSE_CONNECTION env = false /\
  _client_write s = Some 0%nat /\
  _client_write s' = Some 0%nat /\
  run (get_client env true false) s' = Ok (Client 0%nat) /\
  new_events s' (exec (get_client env true false) s') = [] /\
  exception_check env Example.failing_get s
  = (Raise (ConnectionResetError
              "Error: Redis ConnectionError: connection lost, closing old connections"),
     s') /\
  _client_write (exec (exception_check env Example.failing_get) s) = Some 0%nat.
Proof. vm_compute. repeat split. Qed.

(** ** The failover decorator *)

Lemma fatal_caught (e : Exception) :
  fatal e <-> isinstance_any e caught_by_exception_check = true.
Proof.
  unfold fatal, isinstance_any, caught_by_exception_check.
  cbn [existsb].
  destruct (isinstance e "builtins.ConnectionError");
    destruct (isinstance e "redis.exceptions.ReadOnlyError");
    destruct (isinstance e "django_redis.exceptions.ConnectionInterrupted");
    cbn [orb]; split; intros H; auto;
    try discriminate; destruct H as [H | [H | H]]; discriminate.
Qed.

(** C2: a wrapped operation that returns gives its result unchanged; one
    that raises a ConnectionError, a ReadOnlyError or a
    ConnectionInterrupted has [close] called once and
    ConnectionResetError raised in its place; one that raises anything
    else has that exception passed on, in the state the operation left,
    without a call of [close]. *)
Theorem exception_check_recovery (env : Env) (A : Type) (func : M A) (s : State) :
  (forall a s1, func s = (Ok a, s1) -> exception_check env func s = (Ok a, s1)) /\
  (forall e s1, func s = (Raise e, s1) -> fatal e ->
     exception_check env func s = (Raise (stale e), exec (close env) s1) /\
     close_calls (exec (exception_check env func) s) = S (close_calls s1) /\
     isinstance (stale e) "builtins.ConnectionResetError" = true) /\
  (forall e s1, func s = (Raise e, s1) -> ~ fatal e ->
     exception_check env func s = (Raise e, s1) /\
     close_calls (exec (exception_check env func) s) = close_calls s1).
Proof.
  split; [|split].
  - intros a s1 Hf. unfold exception_check, try_except. rewrite Hf. reflexivity.
  - intros e s1 Hf Hfatal. apply fatal_caught in Hfatal.
    assert (Heq : exception_check env func s
                  = (Raise (stale e), exec (close env) s1)).
    { unfold exception_check, try_except. rewrite Hf, Hfatal.
      unfold bind, raise, exec.
      destruct (close env s1) as [[[]|e'] s2] eqn:Hc; [reflexivity|].
      destruct (DJANGO_REDIS_CLOSE_CONNECTION env) eqn:Hflag.
      - rewrite (close_enabled env s1 Hflag) in Hc. discriminate.
      - rewrite (close_disabled env s1 Hflag) in Hc. discriminate. }
    split; [exact Heq|]. split; [|reflexivity].
    unfold exec at 1. rewrite Heq. simpl. apply close_calls_close.
  - intros e s1 Hf Hnot.
    assert (Hc : isinstance_any e caught_by_exception_check = false).
    { destruct (isinstance_any e caught_by_exception_check) eqn:Hc;
        [|reflexivity]. apply fatal_caught in Hc. contradiction. }
    assert (Heq : exception_check env func s = (Raise e, s1)).
    { unfold exception_check, try_except. rewrite Hf, Hc. reflexivity. }
    split; [exact Heq|]. unfold exec. rewrite Heq. reflexivity.
Qed.

Lemma exception_check_recovery_witness :
  let env := Example.env true in
  let s := exec (get_client env true false) Example.start in
  fatal (ConnectionInterrupted "Redis ConnectionError: connection lost") /\
  exception_check env Example.failing_get s
  = (Raise (ConnectionResetError
              "Error: Redis ConnectionError: connection lost, closing old connections"),
     exec (close env) s) /\
  ~ fatal (KeyError "k") /\
  exception_check env Example.bad_key s = (Raise (KeyError "k"), s) /\
  exception_check env (ret 5) s = (Ok 5, s).
Proof.
  intros env s.
  assert (H1 : fatal (ConnectionInterrupted "Redis ConnectionError: connection lost"))
    by (right; right; reflexivity).
  assert (H2 : ~ fatal (KeyError "k"))
    by (intros [H | [H | H]]; discriminate).
  destruct (exception_check_recovery env Z Example.failing_get s) as (_ & Hb & _).
  destruct (exception_check_recovery env Z Example.bad_key s) as (_ & _ & Hc).
  destruct (exception_check_recovery env Z (ret 5) s) as (Ha & _ & _).
  split; [exact H1|].
  split; [exact (proj1 (Hb _ s eq_refl H1))|].
  split; [exact H2|].
  split; [exact (proj1 (Hc _ s eq_refl H2))|].
  exact (Ha 5 s eq_refl).
Defined.

(** ** Reading back what was written *)

Lemma decimal_value_pos (d : Decimal.uint) (acc : positive) :
  decimal_value d (Zpos acc) = Zpos (Pos.of_uint_acc d acc).
Proof.
  revert acc. induction d; intros acc; simpl; [reflexivity|..];
    match goal with
    | |- decimal_value _ ?z = _ =>
        match goal with
        | |- _ = Zpos (Pos.of_uint_acc _ ?p) =>
            replace z with (Zpos p) by lia
        end
    end; apply IHd.
Qed.

Lemma decimal_value_0 (d : Decimal.uint) :
  decimal_value d 0 = Z.of_N (Pos.of_uint d).
Proof.
  induction d; simpl; [reflexivity | exact IHd |..];
    rewrite <- decimal_value_pos; reflexivity.
Qed.

Lemma int_digits_decimal (d : Decimal.uint) (acc : Z) (after_digit : bool) :
  d <> Decimal.Nil \/ after_digit = true ->
  int_digits acc after_digit (list_ascii_of_string (NilEmpty.string_of_uint d))
  = Some (decimal_value d acc).
Proof.
  revert acc after_digit.
  induction d; intros acc after_digit H; simpl;
    [destruct H as [H | ->]; [congruence | reflexivity] |..];
    rewrite IHd by (right; reflexivity); do 2 f_equal; lia.
Qed.

Lemma string_of_uint_chars (d : Decimal.uint) :
  Forall (fun c => digit_value c <> None)
         (list_ascii_of_string (NilEmpty.string_of_uint d)).
Proof. induction d; simpl; constructor; try assumption; discriminate. Qed.

Lemma str_int_chars (z : Z) :
  Forall (fun c => numeral_char c = true) (list_ascii_of_string (str_int z)).
Proof.
  assert (Hd : forall d, Forall (fun c => numeral_char c = true)
                 (list_ascii_of_string (NilEmpty.string_of_uint d))).
  { intros d. eapply Forall_impl; [apply string_of_uint_chars|].
    intros c Hc. unfold numeral_char.
    destruct (digit_value c) eqn:E; [reflexivity | congruence]. }
  assert (Hz : forall d, Forall (fun c => numeral_char c = true)
                 (list_ascii_of_string (NilZero.string_of_uint d))).
  { intros d. destruct d; try apply Hd.
    simpl. constructor; [reflexivity | constructor]. }
  unfold str_int. destruct (Z.to_int z) as [d|d]; simpl; [apply Hz|].
  constructor; [reflexivity | apply Hz].
Qed.

Lemma numeral_char_cases (c : ascii) :
  numeral_char c = true ->
  isspace c = false /\ Ascii.eqb c "/" = false /\ Ascii.eqb c "," = false /\
  Ascii.eqb c ":" = false.
Proof.
  destruct c as [[] [] [] [] [] [] [] []]; vm_compute; intros H;
    try discriminate; auto.
Qed.

Lemma strip_id (l : list ascii) :
  Forall (fun c => isspace c = false) l -> strip l = l.
Proof.
  intros H. unfold strip.
  assert (Hl : forall k, Forall (fun c => isspace c = false) k -> lstrip k = k).
  { intros k Hk. destruct Hk as [|c k Hc Hk]; simpl; [reflexivity|].
    rewrite Hc. reflexivity. }
  rewrite (Hl l H), (Hl (rev l)) by (apply Forall_rev; exact H).
  apply rev_involutive.
Qed.

Lemma contains_chars (sep : ascii) (s : string) :
  Forall (fun c => Ascii.eqb c sep = false) (list_ascii_of_string s) ->
  contains sep s = false.
Proof.
  induction s as [|c rest IH]; simpl; intros H; [reflexivity|].
  inversion H; subst. rewrite IH by assumption.
  match goal with Hc : Ascii.eqb c sep = false |- _ => rewrite Hc end.
  reflexivity.
Qed.

Lemma str_int_plain (z : Z) : plain (str_int z).
Proof.
  pose proof (str_int_chars z) as H.
  repeat split; apply contains_chars;
    (eapply Forall_impl; [exact H|]);
    intros c Hc; apply numeral_char_cases in Hc; tauto.
Qed.

(** [int] reads back what [str] wrote. *)
Lemma int_str_int (z : Z) : int (str_int z) = Ok z.
Proof.
  unfold int. rewrite strip_id.
  2:{ eapply Forall_impl; [apply str_int_chars|].
      intros c Hc. apply numeral_char_cases in Hc. tauto. }
  unfold str_int.
  assert (Hu : forall p,
            int_digits 0 false
              (list_ascii_of_string (NilEmpty.string_of_uint (Pos.to_uint p)))
            = Some (Zpos p)).
  { intros p. rewrite int_digits_decimal.
    - rewrite decimal_value_0, DecimalPos.Unsigned.of_to. reflexivity.
    - left. intros Hnil.
      pose proof (DecimalPos.Unsigned.of_to p) as Hp. rewrite Hnil in Hp.
      discriminate. }
  assert (Hz : forall p,
            NilZero.string_of_uint (Pos.to_uint p)
            = NilEmpty.string_of_uint (Pos.to_uint p)).
  { intros p. destruct (Pos.to_uint p) eqn:Hp; try reflexivity.
    pose proof (DecimalPos.Unsigned.of_to p) as Hq. rewrite Hp in Hq.
    discriminate. }
  destruct z as [|p|p]; simpl; [reflexivity | |].
  - rewrite Hz.
    pose proof (string_of_uint_chars (Pos.to_uint p)) as Hc.
    specialize (Hu p).
    destruct (list_ascii_of_string _) as [|c rest]; [discriminate|].
    inversion Hc as [|? ? Hd _]; subst. unfold int_literal.
    assert (Ascii.eqb c "-" = false /\ Ascii.eqb c "+" = false) as [-> ->].
    { destruct c as [[] [] [] [] [] [] [] []]; vm_compute in Hd; try congruence;
        split; reflexivity. }
    rewrite Hu. reflexivity.
  - rewrite Hz, Hu. reflexivity.
Qed.

Lemma contains_append (sep : ascii) (a b : string) :
  contains sep (a ++ b) = contains sep a || contains sep b.
Proof.
  induction a as [|c a IH]; simpl; [reflexivity|].
  rewrite IH, orb_assoc. reflexivity.
Qed.

Lemma contains_join (sep sep' : ascii) (l : list string) :
  Ascii.eqb sep' sep = false ->
  Forall (fun field => contains sep field = false) l ->
  contains sep (join sep' l) = false.
Proof.
  intros Hsep H. induction H as [|x rest Hx Hrest IH]; [reflexivity|].
  destruct rest as [|y rest]; [exact Hx|].
  change (join sep' (x :: y :: rest)) with (x ++ String sep' (join sep' (y :: rest))).
  rewrite contains_append, Hx. simpl. rewrite Hsep. exact IH.
Qed.

Lemma split_join (sep : ascii) (l : list string) :
  l <> [] ->
  Forall (fun field => contains sep field = false) l ->
  split sep (join sep l) = l.
Proof.
  intros Hne H. induction H as [|x rest Hx Hrest IH]; [congruence|].
  destruct rest as [|y rest]; [apply split_single; exact Hx|].
  change (join sep (x :: y :: rest)) with (x ++ String sep (join sep (y :: rest))).
  rewrite (split_append_sep _ _ _ Hx), IH by discriminate. reflexivity.
Qed.

Lemma length_split (sep : ascii) (s : string) :
  length (split sep s) = S (count_char sep s).
Proof.
  induction s as [|c rest IH]; simpl; [reflexivity|].
  destruct (Ascii.eqb c sep); simpl; [rewrite IH; reflexivity|].
  destruct (split sep rest); simpl in *; lia.
Qed.

Lemma denotes_composed (name db : string) (servers : list (string * string))
    (hosts : list address) :
  contains "/" name = false ->
  contains "/" db = false ->
  servers <> [] ->
  Forall (fun hp => plain hp.1 /\ plain hp.2) servers ->
  Forall2 (fun hp (a : address) => a.1 = hp.1 /\ int hp.2 = Ok a.2) servers hosts ->
  denotes (compose_connection_string name servers db) (name, hosts, db).
Proof.
  intros Hname Hdb Hne Hplain Hports.
  set (endpoint := fun hp : string * string => hp.1 ++ ":" ++ hp.2).
  assert (Hsep : forall sep, sep = "/"%char \/ sep = ","%char ->
            Forall (fun field => contains sep field = false) (map endpoint servers)).
  { intros sep Hs. apply Forall_forall. intros field Hin.
    apply list_elem_of_In in Hin.
    apply in_map_iff in Hin as (hp & <- & Hin).
    rewrite Forall_forall in Hplain.
    destruct (Hplain hp ltac:(apply list_elem_of_In; exact Hin))
      as ((H1 & H2 & _) & (H3 & H4 & _)).
    unfold endpoint. change (":" ++ hp.2) with (String ":" hp.2).
    rewrite contains_append. cbn [contains].
    destruct Hs as [-> | ->]; rewrite ?H1, ?H2, ?H3, ?H4; reflexivity. }
  exists (join "," (map endpoint servers)), []. simpl. split.
  - unfold compose_connection_string. fold endpoint.
    change ("/" ++ join "," (map endpoint servers) ++ "/" ++ db)
      with (String "/" (join "," (map endpoint servers) ++ String "/" db)).
    rewrite (split_append_sep _ _ _ Hname).
    rewrite split_append_sep
      by (apply contains_join; [reflexivity | apply Hsep; left; reflexivity]).
    rewrite (split_single _ _ Hdb). reflexivity.
  - rewrite split_join;
      [| destruct servers; [congruence | discriminate]
       | apply Hsep; right; reflexivity].
    clear Hsep Hne. induction Hports as [|hp a servers hosts [H1 H2] _ IH];
      simpl; constructor.
    + inversion Hplain as [|? ? ((_ & _ & Hh) & (_ & _ & Hp)) _]; subst.
      exists hp.2. split; [|exact H2]. unfold endpoint.
      change (":" ++ hp.2) with (String ":" hp.2).
      rewrite (split_append_sep _ _ _ Hh), (split_single _ _ Hp), H1. reflexivity.
    + apply IH. inversion Hplain; assumption.
Qed.

(** A connection string written in the documented format, with hosts
    and port texts that hold no separator, parses to the descriptor it
    was written from, the ports being whatever [int] reads from their
    texts; hosts, name and db are taken as they stand. *)
Theorem parse_connection_string_composed (name db : string)
    (servers : list (string * string)) (hosts : list address) :
  contains "/" name = false ->
  contains "/" db = false ->
  servers <> [] ->
  Forall (fun hp => plain hp.1 /\ plain hp.2) servers ->
  Forall2 (fun hp (a : address) => a.1 = hp.1 /\ int hp.2 = Ok a.2) servers hosts ->
  parse_connection_string (compose_connection_string name servers db)
  = Ok (name, hosts, db).
Proof.
  intros. apply parse_connection_string_Ok. apply denotes_composed; assumption.
Qed.

Lemma parse_connection_string_composed_witness :
  parse_connection_string
    (compose_connection_string "my master" [(" h1", " 26_379 "); ("h2", "+7")] "")
  = Ok ("my master", [(" h1", 26379); ("h2", 7)], "").
Proof.
  apply parse_connection_string_composed; try reflexivity; try discriminate.
  - repeat constructor.
  - repeat constructor.
Defined.

(** The round trip: a descriptor with at least one endpoint, whose name
    and db hold no "/" and whose hosts hold no separator, is what
    [parse_connection_string] returns for the connection string written
    from it, whatever the integers of its ports. *)
Theorem parse_connection_string_round_trip (d : string * list address * string) :
  contains "/" d.1.1 = false ->
  contains "/" d.2 = false ->
  d.1.2 <> [] ->
  Forall (fun a : address => plain a.1) d.1.2 ->
  parse_connection_string (format_descriptor d) = Ok d.
Proof.
  destruct d as [[name hosts] db]. simpl. intros Hname Hdb Hne Hplain.
  apply parse_connection_string_Ok. unfold format_descriptor. simpl.
  apply denotes_composed; try assumption.
  - destruct hosts; [congruence | discriminate].
  - apply Forall_forall. intros hp Hin. apply list_elem_of_In in Hin.
    apply in_map_iff in Hin as (a & <- & Hin). simpl.
    rewrite Forall_forall in Hplain.
    split; [apply Hplain, list_elem_of_In, Hin | apply str_int_plain].
  - clear. induction hosts as [|a hosts IH]; simpl; constructor; [|exact IH].
    simpl. split; [reflexivity | apply int_str_int].
Qed.

Lemma parse_connection_string_round_trip_witness :
  format_descriptor ("cluster1", [("10.0.0.1", 26379); ("h2", -1)], "0")
  = "cluster1/10.0.0.1:26379,h2:-1/0" /\
  parse_connection_string "cluster1/10.0.0.1:26379,h2:-1/0"
  = Ok ("cluster1", [("10.0.0.1", 26379); ("h2", -1)], "0").
Proof.
  split; [reflexivity|].
  apply (parse_connection_string_round_trip
           ("cluster1", [("10.0.0.1", 26379); ("h2", -1)], "0"));
    try reflexivity; try discriminate.
  repeat constructor.
Defined.

(** What an accepted connection string looks like: it holds at least
    two "/", and every endpoint of its second segment holds exactly one
    ":" (so a host cannot hold a colon, as an IPv6 address does); there
    are as many endpoints in the descriptor as commas in that segment,
    plus one. An endpoint with no or several ":" makes the parser refuse
    the string. *)
Theorem parse_connection_string_separators (constring : string) :
  (forall name hosts db,
     parse_connection_string constring = Ok (name, hosts, db) ->
     (2 <= count_char "/" constring)%nat /\
     Forall (fun endpoint => count_char ":" endpoint = 1%nat) (endpoints constring) /\
     exists segment,
       split "/" constring !! 1%nat = Some segment /\
       length hosts = S (count_char "," segment)) /\
  (forall endpoint,
     endpoint ∈ endpoints constring -> count_char ":" endpoint <> 1%nat ->
     parse_connection_string constring = Raise (incorrect_format constring)).
Proof.
  split.
  - intros name hosts db Hp.
    apply parse_connection_string_Ok in Hp as (segment & rest & Hs & HF).
    simpl in *. split; [|split].
    + pose proof (length_split "/" constring) as Hl. rewrite Hs in Hl.
      simpl in Hl. lia.
    + unfold endpoints. rewrite Hs. simpl.
      clear Hs. induction HF as [|ep a eps hosts (port & Hsp & _) _ IH];
        constructor; [|exact IH].
      pose proof (length_split ":" ep) as Hl. rewrite Hsp in Hl.
      simpl in Hl. lia.
    + exists segment. rewrite Hs. split; [reflexivity|].
      rewrite <- length_split. symmetry. eapply Forall2_length. exact HF.
  - intros endpoint Hin Hcount. apply parse_connection_string_ill_formed.
    right. right. left. exists endpoint. split; [exact Hin|].
    rewrite length_split. lia.
Qed.

Lemma parse_connection_string_separators_witness :
  "::1:26379" ∈ endpoints "mymaster/::1:26379/0" /\
  parse_connection_string "mymaster/::1:26379/0"
  = Raise (incorrect_format "mymaster/::1:26379/0").
Proof.
  assert (H : "::1:26379" ∈ endpoints "mymaster/::1:26379/0") by left.
  split; [exact H|].
  apply (proj2 (parse_connection_string_separators "mymaster/::1:26379/0")
           "::1:26379" H).
  vm_compute. discriminate.
Defined.

(** ** The two slots *)

Section Slots.

Context (env : Env).

Lemma choose_endpoint_events (write : bool) (sentinel : SentinelObj) (name : string)
    (s s' : State) (r : result address) :
  choose_endpoint env write sentinel name s = (r, s') ->
  exists new, trace s' = (trace s ++ new)%list /\
              forallb is_connect_event new = true.
Proof.
  destruct write.
  - rewrite choose_endpoint_write. intros H. inversion H. subst. simpl.
    eexists. split; reflexivity.
  - unfold choose_endpoint, try_except, bind, discover_slaves, random_choice,
      discover_master, log_debug, modify.
    intros Heq.
    repeat case_match; simplify_eq; simpl; rewrite <- ?app_assoc; simpl;
      eexists; (split; reflexivity).
Qed.

Lemma connect_events (write : bool) (s s' : State) (r : result ref) :
  connect env write s = (r, s') ->
  exists new, trace s' = (trace s ++ new)%list /\
              forallb is_connect_event new = true.
Proof.
  rewrite connect_eq. simpl.
  destruct (parse_connection_string _) as [parsed|e].
  - destruct (choose_endpoint _ _ _ _ _) as [[a|e] s3] eqn:Hc;
      apply choose_endpoint_events in Hc as (new & Ht & Hnew); simpl in Ht.
    + rewrite connection_factory_connect_eq.
      destruct (factory_connect _ _ _); intros H; inversion H; subst; simpl;
        rewrite Ht, <- !app_assoc; simpl;
        exists (SentinelInit (sentinel_of s parsed.1.2) :: new
                  ++ [FactoryConnect (url_of s a parsed.2)])%list;
        (split; [reflexivity|]); simpl; rewrite forallb_app, Hnew; reflexivity.
    + intros H. inversion H. subst. rewrite Ht, <- app_assoc. simpl.
      eexists. split; [reflexivity|]. simpl. exact Hnew.
  - intros H. inversion H. subst. simpl. exists []. rewrite app_nil_r.
    split; reflexivity.
Qed.

Lemma connect_store (write : bool) (s s' : State) (r : result ref) :
  connect env write s = (r, s') -> exists objects, store s' = (store s ++ objects)%list.
Proof.
  destruct r as [c|e]; intros H.
  - apply connect_Ok in H as (_ & url & pool & Hst). eauto.
  - apply connect_Raise in H. exists []. rewrite app_nil_r. exact H.
Qed.

End Slots.

(** [get_client] for one mode leaves the slot of the other mode, the
    connection string and the options as they are, keeps every client
    object of the store in its place, and neither disconnects a
    connection nor calls [close]. *)
Theorem get_client_frame (env : Env) (write show_index : bool) (s : State) :
  let s' := exec (get_client env write show_index) s in
  slot (negb write) s' = slot (negb write) s /\
  _connection_string s' = _connection_string s /\
  _options s' = _options s /\
  (exists objects, store s' = (store s ++ objects)%list) /\
  exists new, trace s' = (trace s ++ new)%list /\
              forallb is_connect_event new = true.
Proof.
  intros s'. subst s'. unfold exec. rewrite get_client_eq.
  destruct (slot write s) as [c|] eqn:Hs; simpl.
  - rewrite slot_add_log. repeat split.
    + exists []. rewrite app_nil_r. reflexivity.
    + exists []. rewrite app_nil_r. split; reflexivity.
  - destruct (connect env write _) as [r s1] eqn:Hc.
    pose proof (connect_frame env _ _ _ _ Hc) as (Hw & Hr & Hcs & Ho).
    pose proof (connect_store env _ _ _ _ Hc) as Hst.
    pose proof (connect_events env _ _ _ _ Hc) as Hev.
    simpl in *.
    destruct r as [c|e]; simpl.
    + rewrite slot_set_slot. destruct write; simpl; auto.
    + destruct write; simpl; auto.
Qed.

(** ** What stays true whatever the caller does *)

Section Invariant.

Context (env : Env).

Lemma exception_check_fatal {A} (func : M A) (s s1 : State) (e : Exception) :
  func s = (Raise e, s1) -> fatal e ->
  exception_check env func s = (Raise (stale e), exec (close env) s1).
Proof.
  intros Hf Hfatal. apply fatal_caught in Hfatal.
  unfold exception_check, try_except. rewrite Hf, Hfatal.
  unfold bind, raise, exec.
  destruct (DJANGO_REDIS_CLOSE_CONNECTION env) eqn:Hflag.
  - rewrite (close_enabled env s1 Hflag). reflexivity.
  - rewrite (close_disabled env s1 Hflag). reflexivity.
Qed.

Lemma exception_check_other {A} (func : M A) (s s1 : State) (e : Exception) :
  func s = (Raise e, s1) -> ~ fatal e ->
  exception_check env func s = (Raise e, s1).
Proof.
  intros Hf Hnot.
  unfold exception_check, try_except. rewrite Hf.
  destruct (isinstance_any e caught_by_exception_check) eqn:Hc; [|reflexivity].
  apply fatal_caught in Hc. contradiction.
Qed.

Lemma fatal_dec (e : Exception) : fatal e \/ ~ fatal e.
Proof.
  destruct (isinstance_any e caught_by_exception_check) eqn:Hc.
  - left. apply fatal_caught. exact Hc.
  - right. intros H. apply fatal_caught in H. congruence.
Qed.

Lemma close_holds (server : string) (options : gmap string value) (s : State) :
  holds server options s -> holds server options (exec (close env) s).
Proof.
  intros (Hv & Hcs & Ho). unfold exec.
  destruct (DJANGO_REDIS_CLOSE_CONNECTION env) eqn:Hflag.
  - rewrite (close_enabled env s Hflag).
    split; [|split; [exact Hcs | exact Ho]].
    intros write c H. destruct write; discriminate.
  - rewrite (close_disabled env s Hflag).
    split; [|split; [exact Hcs | exact Ho]].
    intros write c H. apply (Hv write c). destruct write; exact H.
Qed.

Lemma get_client_holds (server : string) (options : gmap string value)
    (write show_index : bool) (s : State) :
  holds server options s ->
  holds server options (exec (get_client env write show_index) s).
Proof.
  intros (Hv & Hcs & Ho). unfold exec. rewrite get_client_eq.
  destruct (slot write s) as [c|] eqn:Hs.
  - split; [|split; [exact Hcs | exact Ho]].
    intros w c' H. apply (Hv w c'). destruct w; exact H.
  - destruct (connect env write _) as [[c|e] s1] eqn:Hc;
      pose proof (connect_frame env _ _ _ _ Hc) as (Hw & Hr & Hcs' & Ho');
      simpl in Hw, Hr, Hcs', Ho'.
    + apply connect_Ok in Hc as (-> & url & pool & Hst). simpl in Hst.
      assert (Hlen : length (store s1) = S (length (store s)))
        by (rewrite Hst, length_app; simpl; lia).
      split; [|split].
      * intros w c' H. simpl in H. rewrite slot_set_slot in H.
        assert (Hst' : forall x, store (set_slot write x s1) = store s1)
          by (intros x; destruct write; reflexivity).
        cbn [snd]. rewrite Hst', Hlen.
        destruct (Bool.eqb w write) eqn:Hb.
        -- inversion H. subst. simpl. lia.
        -- rewrite (slot_frame _ _ _ Hw Hr) in H. pose proof (Hv w c' H). lia.
      * simpl. destruct write; simpl; congruence.
      * simpl. destruct write; simpl; congruence.
    + apply connect_Raise in Hc. simpl in Hc.
      split; [|split]; simpl; try congruence.
      intros w c' H. rewrite Hc. apply (Hv w c').
      rewrite <- (slot_frame w s s1 Hw Hr). exact H.
Qed.

Lemma call_holds (server : string) (options : gmap string value)
    (c : Call) (s : State) :
  holds server options s -> holds server options (call env c s).
Proof.
  intros H. destruct c as [write show_index | | e]; simpl.
  - apply get_client_holds. exact H.
  - apply close_holds. exact H.
  - destruct (fatal_dec e) as [Hf | Hf]; unfold exec.
    + rewrite (exception_check_fatal (raise e) s s e eq_refl Hf). simpl.
      apply close_holds. exact H.
    + rewrite (exception_check_other (raise e) s s e eq_refl Hf). exact H.
Qed.

Lemma run_calls_holds (server : string) (options : gmap string value)
    (calls : list Call) (s : State) :
  holds server options s -> holds server options (run_calls env calls s).
Proof.
  revert s. induction calls as [|c calls IH]; intros s H; simpl; [exact H|].
  apply IH. apply call_holds. exact H.
Qed.

End Invariant.

(** Whatever sequence of [get_client] calls, [close] calls and failing
    wrapped operations follows the construction of the client, the
    connection string and the options stay those given to [__init__],
    and every filled slot refers to a client object that [connect] got
    from the connection factory: nothing else is ever put in a slot. *)
Theorem slots_stay_valid (env : Env) (server : string)
    (options : gmap string value) (calls : list Call) :
  let s := run_calls env calls (init server options) in
  _connection_string s = server /\ _options s = options /\
  (forall write c, slot write s = Some c -> exists o, store s !! c = Some o).
Proof.
  intros s.
  destruct (run_calls_holds env server options calls (init server options))
    as (Hv & Hcs & Ho).
  { split; [|split; reflexivity].
    intros write c H. destruct write; discriminate. }
  split; [exact Hcs|]. split; [exact Ho|].
  intros write c H. apply lookup_lt_is_Some_2. exact (Hv write c H).
Qed.

(** ** Wrapped operations that call wrapped operations *)

Lemma append_assoc (a b c : string) : ((a ++ b) ++ c = a ++ (b ++ c))%string.
Proof.
  induction a as [|x a IH]; [reflexivity|].
  change (String x ((a ++ b) ++ c) = String x (a ++ (b ++ c)))%string.
  rewrite IH. reflexivity.
Qed.

Lemma fatal_stale (e : Exception) : fatal (stale e).
Proof. left. reflexivity. Qed.

(** The exception the wrapper raises is one the wrapper catches: when a
    wrapped operation calls another wrapped operation that loses its
    connection, [close] runs twice and the message is wrapped twice; a
    result or another exception passes both wrappers untouched. *)
Theorem exception_check_nested (env : Env) (A : Type) (func : M A) (s : State) :
  (forall e s1, func s = (Raise e, s1) -> fatal e ->
     exception_check env (exception_check env func) s
     = (Raise (stale (stale e)), exec (close env) (exec (close env) s1)) /\
     close_calls (exec (exception_check env (exception_check env func)) s)
     = S (S (close_calls s1)) /\
     exc_msg (stale (stale e))
     = "Error: Error: " ++ exc_msg e
         ++ ", closing old connections, closing old connections") /\
  (forall e s1, func s = (Raise e, s1) -> ~ fatal e ->
     exception_check env (exception_check env func) s = (Raise e, s1)) /\
  (forall a s1, func s = (Ok a, s1) ->
     exception_check env (exception_check env func) s = (Ok a, s1)).
Proof.
  split; [|split].
  - intros e s1 Hf Hfatal.
    pose proof (exception_check_fatal env func s s1 e Hf Hfatal) as H1.
    pose proof (exception_check_fatal env (exception_check env func) s _ _ H1
                  (fatal_stale e)) as H2.
    split; [exact H2|]. split.
    + unfold exec at 1. rewrite H2. simpl. rewrite !close_calls_close. reflexivity.
    + unfold stale, ConnectionResetError. cbn [exc_msg].
      rewrite !append_assoc. reflexivity.
  - intros e s1 Hf Hnot.
    apply exception_check_other; [|exact Hnot].
    apply exception_check_other; assumption.
  - intros a s1 Hf. unfold exception_check, try_except. rewrite Hf. reflexivity.
Qed.

Lemma exception_check_nested_witness :
  let env := Example.env true in
  let s := get_clients env [(true, false); (false, false)] Example.start in
  exception_check env (exception_check env Example.failing_get) s
  = (Raise (ConnectionResetError
       "Error: Error: Redis ConnectionError: connection lost, closing old connections, closing old connections"),
     exec (close env) (exec (close env) s)) /\
  close_calls (exec (exception_check env (exception_check env Example.failing_get)) s)
  = 2%nat.
Proof.
  intros env s.
  destruct (proj1 (exception_check_nested env Z Example.failing_get s)
              (ConnectionInterrupted "Redis ConnectionError: connection lost") s
              eq_refl ltac:(right; right; reflexivity)) as (H1 & H2 & _).
  split; [exact H1 | exact H2].
Defined.

(** ** After a lost connection *)

(** What the next [get_client] does after the wrapper has turned a lost
    connection into ConnectionResetError: with
    DJANGO_REDIS_CLOSE_CONNECTION both slots are empty and the next
    [get_client] of either mode starts with a discovery; without it the
    slots hold what the failed operation left, and a client that was
    cached is handed out again with nothing asked of the Sentinels. *)
Theorem exception_check_then_get_client (env : Env) (A : Type) (func : M A)
    (s s1 : State) (e : Exception) (write show_index : bool) :
  func s = (Raise e, s1) -> fatal e ->
  let s2 := exec (exception_check env func) s in
  (DJANGO_REDIS_CLOSE_CONNECTION env = true ->
   _client_write s2 = None /\ _client_read s2 = None /\
   forall name hosts db,
     parse_connection_string (_connection_string s1) = Ok (name, hosts, db) ->
     exists rest,
       List.filter is_discovery
         (new_events s2 (exec (get_client env write show_index) s2))
       = first_query write name :: rest) /\
  (DJANGO_REDIS_CLOSE_CONNECTION env = false ->
   _client_write s2 = _client_write s1 /\ _client_read s2 = _client_read s1 /\
   forall c, slot write s1 = Some c ->
     run (get_client env write show_index) s2 = Ok (client_result show_index c) /\
     new_events s2 (exec (get_client env write show_index) s2) = []).
Proof.
  intros Hf Hfatal s2.
  assert (Heq : s2 = exec (close env) s1).
  { unfold s2, exec at 1.
    rewrite (exception_check_fatal env func s s1 e Hf Hfatal). reflexivity. }
  clearbody s2. subst s2. split; intros Hflag.
  - assert (Hcl : exec (close env) s1 = closed s1)
      by (unfold exec; rewrite (close_enabled env s1 Hflag); reflexivity).
    rewrite Hcl. split; [reflexivity|]. split; [reflexivity|].
    intros name hosts db Hp.
    destruct (get_client_discovers env write show_index (closed s1) name db hosts)
      as (rest & Hd & _).
    + destruct write; reflexivity.
    + exact Hp.
    + exists rest. exact Hd.
  - assert (Hcl : exec (close env) s1 = add_event CloseCalled s1)
      by (unfold exec; rewrite (close_disabled env s1 Hflag); reflexivity).
    rewrite Hcl. split; [reflexivity|]. split; [reflexivity|].
    intros c Hc. unfold run, exec. rewrite get_client_eq.
    assert (Hs : slot write (add_event CloseCalled s1) = Some c)
      by (destruct write; exact Hc).
    rewrite Hs. cbn [fst snd]. split; [reflexivity|].
    unfold new_events. simpl. rewrite drop_all. reflexivity.
Qed.

Lemma exception_check_then_get_client_witness :
  let env := Example.env false in
  let s := exec (get_client env true false) Example.start in
  let s2 := exec (exception_check env Example.failing_get) s in
  run (get_client env true false) s2 = Ok (Client 0%nat) /\
  new_events s2 (exec (get_client env true false) s2) = [].
Proof.
  intros env s s2.
  destruct (exception_check_then_get_client env Z Example.failing_get s s
              (ConnectionInterrupted "Redis ConnectionError: connection lost")
              true false eq_refl ltac:(right; right; reflexivity)) as (_ & H).
  destruct (H eq_refl) as (_ & _ & Hc).
  exact (Hc 0%nat eq_refl).
Defined.

(** ** Reads when the discovery of the replicas goes wrong *)

(** A read whose [discover_slaves] call raises: any exception but an
    IndexError leaves [get_client] as it is, with the read slot empty
    and nothing more asked; an IndexError is taken for an empty list of
    replicas, and the client is built from the primary without
    [random.choice] being called. *)
Theorem get_client_read_discovery_raises (env : Env) (show_index : bool)
    (s : State) (name db : string) (hosts : list address) (e : Exception) :
  _client_read s = None ->
  parse_connection_string (_connection_string s) = Ok (name, hosts, db) ->
  let sentinel := sentinel_of s hosts in
  let t := S (clock s) in
  let c := length (store s) in
  sentinel_discover_slaves env t sentinel name = Raise e ->
  (isinstance e "builtins.IndexError" = false ->
   exists s',
     get_client env false show_index s = (Raise e, s') /\
     _client_read s' = None /\
     new_events s s' = [SentinelInit sentinel; DiscoverSlaves name]) /\
  (isinstance e "builtins.IndexError" = true ->
   forall m pool,
     sentinel_discover_master env (S t) sentinel name = Ok m ->
     factory_connect env (S (S t)) (url_of s m db) = Ok pool ->
     exists s',
       get_client env false show_index s = (Ok (client_result show_index c), s') /\
       _client_read s' = Some c /\
       store s' !! c = Some (mkClient (url_of s m db) pool) /\
       new_events s s'
       = [SentinelInit sentinel; DiscoverSlaves name; DiscoverMaster name;
          FactoryConnect (url_of s m db)]).
Proof.
  intros Hs Hp sentinel t c Hsl.
  assert (Ht : clock (discovering false s sentinel) = t).
  { unfold discovering. rewrite clock_add_event, !clock_add_log. reflexivity. }
  split; intros Hi.
  - assert (Hc : choose_endpoint env false sentinel name (discovering false s sentinel)
                 = (Raise e, add_event (DiscoverSlaves name)
                               (discovering false s sentinel))).
    { unfold choose_endpoint, try_except, bind, discover_slaves.
      rewrite Ht, Hsl. unfold isinstance_any. simpl. rewrite Hi. reflexivity. }
    eexists. split.
    + exact (get_client_discovery_raises env false show_index s _ name db hosts e
               Hs Hp Hc).
    + split; [exact Hs|]. new_events_simpl. reflexivity.
  - intros m pool Hm Hf.
    assert (Hc : choose_endpoint env false sentinel name (discovering false s sentinel)
                 = (Ok m, add_event (DiscoverMaster name)
                            (add_log "no slaves are available. using master for read."
                               (add_event (DiscoverSlaves name)
                                  (discovering false s sentinel))))).
    { unfold choose_endpoint, try_except, bind, discover_slaves.
      rewrite Ht, Hsl. unfold isinstance_any. simpl. rewrite Hi. simpl.
      unfold discover_master, log_debug, modify.
      rewrite clock_add_log, clock_add_event, Ht, Hm. reflexivity. }
    pose proof (get_client_after_discovery env false show_index s _ name db hosts m
                  Hs Hp Hc) as Hg.
    rewrite !clock_add_event, clock_add_log, clock_add_event, Ht, Hf in Hg.
    eexists. split; [exact Hg|]. unfold connected. simpl.
    split; [reflexivity|].
    split; [|new_events_simpl; reflexivity].
    rewrite lookup_app_r by reflexivity.
    rewrite Nat.sub_diag. reflexivity.
Qed.

(** A read with no replica and no primary: the exception of
    [discover_master] reaches the caller, the read slot stays empty, no
    client object is created and the connection factory is not asked. *)
Theorem get_client_read_no_primary (env : Env) (show_index : bool)
    (s : State) (name db : string) (hosts : list address) (e : Exception) :
  _client_read s = None ->
  parse_connection_string (_connection_string s) = Ok (name, hosts, db) ->
  let sentinel := sentinel_of s hosts in
  let t := S (clock s) in
  sentinel_discover_slaves env t sentinel name = Ok [] ->
  sentinel_discover_master env (S (S t)) sentinel name = Raise e ->
  exists s',
    get_client env false show_index s = (Raise e, s') /\
    _client_read s' = None /\ store s' = store s /\
    new_events s s'
    = [SentinelInit sentinel; DiscoverSlaves name; RandomChoice 0;
       DiscoverMaster name].
Proof.
  intros Hs Hp sentinel t Hsl Hm.
  assert (Ht : clock (discovering false s sentinel) = t).
  { unfold discovering. rewrite clock_add_event, !clock_add_log. reflexivity. }
  pose proof (choose_endpoint_read_fallback env sentinel name
                (discovering false s sentinel)) as Hc.
  rewrite Ht in Hc. specialize (Hc Hsl). rewrite Hm in Hc.
  eexists. split.
  - exact (get_client_discovery_raises env false show_index s _ name db hosts e
             Hs Hp Hc).
  - split; [exact Hs|]. split; [reflexivity|]. new_events_simpl. reflexivity.
Qed.

Lemma get_client_read_no_primary_witness :
  exists s',
    get_client Example.env_no_primary false false Example.start
    = (Raise (MasterNotFoundError "No master found for 'cluster1'"), s') /\
    _client_read s' = None /\ store s' = [].
Proof.
  destruct (get_client_read_no_primary Example.env_no_primary false Example.start
              "cluster1" "3" [("h1", 1); ("h2", 2)]
              (MasterNotFoundError "No master found for 'cluster1'")
              eq_refl eq_refl eq_refl eq_refl) as (s' & H1 & H2 & H3 & _).
  exists s'. split; [exact H1|]. split; [exact H2 | exact H3].
Defined.

Lemma get_client_read_discovery_raises_witness :
  (exists s',
     get_client (Example2.env_replicas_fail (RedisConnectionError "down")) false false
       Example.start = (Raise (RedisConnectionError "down"), s') /\
     _client_read s' = None) /\
  (exists s',
     get_client (Example2.env_replicas_fail (IndexError "pop from empty list"))
       false false Example.start = (Ok (Client 0%nat), s') /\
     store s' !! 0%nat = Some (mkClient "redis://h1:1/3" [])).
Proof.
  split.
  - destruct (proj1 (get_client_read_discovery_raises
                       (Example2.env_replicas_fail (RedisConnectionError "down"))
                       false Example.start "cluster1" "3" [("h1", 1); ("h2", 2)]
                       (RedisConnectionError "down") eq_refl eq_refl eq_refl)
                eq_refl) as (s' & H1 & H2 & _).
    exists s'. split; [exact H1 | exact H2].
  - destruct (proj2 (get_client_read_discovery_raises
                       (Example2.env_replicas_fail (IndexError "pop from empty list"))
                       false Example.start "cluster1" "3" [("h1", 1); ("h2", 2)]
                       (IndexError "pop from empty list") eq_refl eq_refl eq_refl)
                eq_refl ("h1", 1) [] eq_refl eq_refl) as (s' & H1 & _ & H3 & _).
    exists s'. split; [exact H1 | exact H3].
Defined.

(** ** The password and the timeout *)

(** On a write that finds the primary, the Sentinel is built with the
    hosts of the connection string, the SENTINEL_TIMEOUT option (1 when
    the option is missing) and the PASSWORD option as it stands; the url
    asked of the connection factory holds the password only when the
    option is a non-empty string: a missing, None or empty password
    gives redis://host:port/db. *)
Theorem get_client_write_url (env : Env) (show_index : bool) (s : State)
    (name db : string) (hosts : list address) (m : address) :
  _client_write s = None ->
  parse_connection_string (_connection_string s) = Ok (name, hosts, db) ->
  sentinel_discover_master env (S (clock s)) (sentinel_of s hosts) name = Ok m ->
  let s' := exec (get_client env true show_index) s in
  (exists url,
     new_events s s'
     = [SentinelInit (mkSentinel hosts
                        (default (VInt 1) (_options s !! "SENTINEL_TIMEOUT"))
                        (default VNone (_options s !! "PASSWORD")));
        DiscoverMaster name; FactoryConnect url] /\
     ((_options s !! "PASSWORD" = None \/ _options s !! "PASSWORD" = Some VNone \/
       _options s !! "PASSWORD" = Some (VStr "")) ->
      url = "redis://" ++ m.1 ++ ":" ++ str_int m.2 ++ "/" ++ db) /\
     (forall password,
        _options s !! "PASSWORD" = Some (VStr password) -> password <> "" ->
        url = "redis://:" ++ password ++ "@" ++ m.1 ++ ":" ++ str_int m.2
                ++ "/" ++ db)).
Proof.
  intros Hs Hp Hm s'.
  assert (Hc : choose_endpoint env true (sentinel_of s hosts) name
                 (discovering true s (sentinel_of s hosts))
               = (Ok m, add_event (DiscoverMaster name)
                          (discovering true s (sentinel_of s hosts)))).
  { rewrite choose_endpoint_write. unfold discovering.
    rewrite clock_add_event, !clock_add_log, Hm. reflexivity. }
  pose proof (get_client_after_discovery env true show_index s _ name db hosts m
                Hs Hp Hc) as Hg.
  exists (url_of s m db). split; [|split].
  - subst s'. unfold exec. rewrite Hg.
    assert (Hsen : sentinel_of s hosts
                   = mkSentinel hosts
                       (default (VInt 1) (_options s !! "SENTINEL_TIMEOUT"))
                       (default VNone (_options s !! "PASSWORD"))).
    { unfold sentinel_of, password_of, dict_get.
      destruct (_options s !! "SENTINEL_TIMEOUT"), (_options s !! "PASSWORD");
        reflexivity. }
    rewrite <- Hsen.
    destruct (factory_connect _ _ _); unfold connected; new_events_simpl;
      reflexivity.
  - unfold url_of, password_of, dict_get, connection_url_of.
    intros [-> | [-> | ->]]; reflexivity.
  - intros password Hpw Hne.
    unfold url_of, password_of, dict_get, connection_url_of. rewrite Hpw.
    simpl. destruct (String.eqb password "") eqn:He; [|reflexivity].
    apply String.eqb_eq in He. contradiction.
Qed.

Lemma get_client_write_url_witness :
  new_events Example2.start_with_password
    (exec (get_client (Example.env true) true false) Example2.start_with_password)
  = [SentinelInit (mkSentinel [("h1", 1); ("h2", 2)] (VInt 5) (VStr "s3cret"));
     DiscoverMaster "cluster1"; FactoryConnect "redis://:s3cret@h1:1/3"].
Proof.
  destruct (get_client_write_url (Example.env true) false
              Example2.start_with_password "cluster1" "3" [("h1", 1); ("h2", 2)]
              ("h1", 1) eq_refl eq_refl eq_refl) as (url & H1 & _ & H3).
  rewrite H1. rewrite (H3 "s3cret" eq_refl ltac:(discriminate)). reflexivity.
Defined.

(** ** The wrapping done by [__init__] *)

Section Init.

Context (env : Env) {Args A : Type}.

Lemma wrap_attributes_Ok (names : list string) (attrs : gmap string (Attribute Args A)) :
  NoDup names ->
  Forall (fun name => attrs !! name <> None) names ->
  exists attrs',
    wrap_attributes env names attrs = Ok attrs' /\
    forall name, attrs' !! name = wrapped_lookup env names attrs name.
Proof.
  intros Hnd. revert attrs.
  induction Hnd as [|a names Hnotin Hnd IH]; intros attrs Hall.
  - exists attrs. split; [reflexivity|]. intros name. unfold wrapped_lookup.
    destruct (attrs !! name) as [[f|v]|]; reflexivity.
  - inversion Hall as [|? ? Ha Hrest]; subst. simpl. unfold wrap_attribute.
    destruct (attrs !! a) as [[f|v]|] eqn:Hlook; [| |congruence]; simpl.
    + destruct (IH (<[a := Callable (wrapper env f)]> attrs)) as (attrs' & Hw & Hl).
      { eapply Forall_impl; [exact Hrest|]. intros name Hname.
        destruct (decide (a = name)) as [->|Hne].
        - rewrite lookup_insert_eq. discriminate.
        - rewrite lookup_insert_ne by exact Hne. exact Hname. }
      exists attrs'. split; [exact Hw|]. intros name. rewrite Hl.
      unfold wrapped_lookup.
      destruct (decide (a = name)) as [<-|Hne].
      * rewrite lookup_insert_eq, Hlook.
        destruct (decide (a ∈ names)); [contradiction|].
        destruct (decide (a ∈ a :: names)) as [|Hn]; [reflexivity|].
        destruct Hn. left.
      * rewrite lookup_insert_ne by exact Hne.
        destruct (attrs !! name) as [[g|w]|]; try reflexivity.
        destruct (decide (name ∈ names)) as [Hin|Hin];
          destruct (decide (name ∈ a :: names)) as [Hin'|Hin']; try reflexivity.
        -- destruct Hin'. right. exact Hin.
        -- inversion Hin'; subst; [congruence | contradiction].
    + destruct (IH attrs Hrest) as (attrs' & Hw & Hl).
      exists attrs'. split; [exact Hw|]. intros name. rewrite Hl.
      unfold wrapped_lookup.
      destruct (attrs !! name) as [[g|w]|] eqn:Hname; try reflexivity.
      destruct (decide (name ∈ names)) as [Hin|Hin];
        destruct (decide (name ∈ a :: names)) as [Hin'|Hin']; try reflexivity.
      * destruct Hin'. right. exact Hin.
      * inversion Hin'; subst; [congruence | contradiction].
Qed.

Lemma wrap_attributes_Raise (names : list string)
    (attrs : gmap string (Attribute Args A)) (name : string) :
  name ∈ names -> attrs !! name = None ->
  exists e, wrap_attributes env names attrs = Raise e /\
            isinstance e "builtins.AttributeError" = true.
Proof.
  revert attrs. induction names as [|a names IH]; intros attrs Hin Hnone;
    [inversion Hin|].
  simpl. unfold wrap_attribute.
  destruct (attrs !! a) as [[f|v]|] eqn:Hlook; simpl.
  - apply IH.
    + inversion Hin; subst; [congruence | assumption].
    + rewrite lookup_insert_ne; [exact Hnone | congruence].
  - apply IH; [|exact Hnone].
    inversion Hin; subst; [congruence | assumption].
  - eexists. split; reflexivity.
Qed.

End Init.

(** [__init__] wraps each of its nineteen names once: when the object
    has them all, a method among them is replaced by its wrapper, a
    value that is not callable stays, and every attribute outside the
    list (such as [close], [get_client] or [connect]) is left as it is;
    when the object lacks one of them, [__init__] raises
    AttributeError. *)
Theorem init_attributes_wraps (env : Env) (Args A : Type)
    (attrs : gmap string (Attribute Args A)) :
  (Forall (fun name => attrs !! name <> None) wrapped_attributes ->
   exists attrs',
     init_attributes env attrs = Ok attrs' /\
     (forall name func,
        name ∈ wrapped_attributes -> attrs !! name = Some (Callable func) ->
        attrs' !! name = Some (Callable (wrapper env func))) /\
     (forall name v,
        attrs !! name = Some (NotCallable v) ->
        attrs' !! name = Some (NotCallable v)) /\
     (forall name, name ∉ wrapped_attributes -> attrs' !! name = attrs !! name)) /\
  (forall name,
     name ∈ wrapped_attributes -> attrs !! name = None ->
     exists e, init_attributes env attrs = Raise e /\
               isinstance e "builtins.AttributeError" = true).
Proof.
  split.
  - intros Hall.
    destruct (wrap_attributes_Ok env wrapped_attributes attrs) as (attrs' & Hw & Hl).
    { unfold wrapped_attributes. compute_done. }
    { exact Hall. }
    exists attrs'. split; [exact Hw|]. split; [|split].
    + intros name func Hin Hlook. rewrite Hl. unfold wrapped_lookup.
      rewrite Hlook. destruct (decide (name ∈ wrapped_attributes));
        [reflexivity | contradiction].
    + intros name v Hlook. rewrite Hl. unfold wrapped_lookup.
      rewrite Hlook. reflexivity.
    + intros name Hnotin. rewrite Hl. unfold wrapped_lookup.
      destruct (attrs !! name) as [[g|w]|]; try reflexivity.
      destruct (decide (name ∈ wrapped_attributes));
        [contradiction | reflexivity].
  - intros name Hin Hnone.
    exact (wrap_attributes_Raise env wrapped_attributes attrs name Hin Hnone).
Qed.

Lemma init_attributes_wraps_witness :
  exists attrs',
    init_attributes (Example.env true) example_attributes = Ok attrs' /\
    attrs' !! "get"
    = Some (Callable (wrapper (Example.env true) (fun _ => Example.failing_get))) /\
    attrs' !! "close" = Some (Callable (fun _ => Example.bad_key)) /\
    attrs' !! "_backend" = Some (NotCallable (VStr "RedisCache")).
Proof.
  destruct (proj1 (init_attributes_wraps (Example.env true) unit Z example_attributes))
    as (attrs' & Hw & Hwrapped & Hdata & Hother).
  { unfold wrapped_attributes.
    repeat (constructor; [vm_compute; discriminate|]). constructor. }
  exists attrs'. split; [exact Hw|]. split; [|split].
  - apply Hwrapped; [|reflexivity].
    apply list_elem_of_In. simpl. tauto.
  - rewrite Hother; [reflexivity|].
    intros Hin. apply list_elem_of_In in Hin. simpl in Hin.
    repeat (destruct Hin as [Hin | Hin]; [discriminate|]). exact Hin.
  - apply Hdata. reflexivity.
Defined.

(** ** A connection string that does not parse *)

Lemma get_client_malformed (env : Env) (write show_index : bool) (s : State)
    (e : Exception) :
  parse_connection_string (_connection_string s) = Raise e ->
  slot write s = None ->
  get_client env write show_index s
  = (Raise e, add_log (connect_called write) (add_log (get_client_called write) s)).
Proof.
  intros Hp Hs. rewrite get_client_eq, Hs, connect_in_get_client, Hp. reflexivity.
Qed.

(** The body of [__init__] keeps the connection string without parsing
    it; a client whose string does not parse raises
    ImproperlyConfigured, carrying the string, on every [get_client]
    call of either mode, however many came before; the slots stay empty
    and neither the Sentinels nor the connection factory are ever
    asked. *)
Theorem get_client_never_connects_malformed (env : Env) (server : string)
    (options : gmap string value) (calls : list (bool * bool)) :
  ill_formed server ->
  let s := get_clients env calls (init server options) in
  _client_write s = None /\ _client_read s = None /\
  trace s = [] /\ store s = [] /\
  forall write show_index,
    run (get_client env write show_index) s = Raise (incorrect_format server).
Proof.
  intros Hill s.
  pose proof (parse_connection_string_ill_formed server Hill) as Hp.
  assert (H : forall s0,
            _connection_string s0 = server -> _client_write s0 = None ->
            _client_read s0 = None -> trace s0 = [] -> store s0 = [] ->
            let s1 := get_clients env calls s0 in
            _connection_string s1 = server /\ _client_write s1 = None /\
            _client_read s1 = None /\ trace s1 = [] /\ store s1 = []).
  { induction calls as [|[w si] calls IH]; intros s0 Hcs Hw Hr Ht Hst; simpl;
      [auto|].
    unfold exec. rewrite (get_client_malformed env w si s0 (incorrect_format server));
      [|rewrite Hcs; exact Hp | destruct w; assumption].
    apply IH; assumption. }
  destruct (H (init server options) eq_refl eq_refl eq_refl eq_refl eq_refl)
    as (Hcs & Hw & Hr & Ht & Hst).
  fold s in Hcs, Hw, Hr, Ht, Hst.
  split; [exact Hw|]. split; [exact Hr|]. split; [exact Ht|]. split; [exact Hst|].
  intros write show_index. unfold run.
  rewrite (get_client_malformed env write show_index s (incorrect_format server));
    [reflexivity | rewrite Hcs; exact Hp | destruct write; assumption].
Qed.

Lemma get_client_never_connects_malformed_witness :
  let s := get_clients (Example.env true) [(true, false); (false, true)]
             (init "mymaster/bad/0" ∅) in
  trace s = [] /\
  run (get_client (Example.env true) true false) s
  = Raise (ImproperlyConfigured "Incorrect format 'mymaster/bad/0'").
Proof.
  intros s.
  assert (Hill : ill_formed "mymaster/bad/0").
  { right. right. left. exists "bad". split; [left | vm_compute; discriminate]. }
  destruct (get_client_never_connects_malformed (Example.env true) "mymaster/bad/0" ∅
              [(true, false); (false, true)] Hill) as (_ & _ & Ht & _ & Hrun).
  split; [exact Ht | exact (Hrun true false)].
Defined.
